(** * Verification of the portfolio front-end components

    Shallow embedding of the three Angular components of the site:
    - [Adapter]    : header-particles.component.ts, the lifecycle of the
                     tsParticles container (ngAfterViewInit, onWindowResized,
                     ngOnDestroy);
    - [Rocker]     : header-particles.component.ts, the two particle updaters
                     registered by enableFeatures (rockerSmooth, rockerStep),
                     over the binary64 numbers of [Float64];
    - [Navigation] : navigation.component.ts, the navigation bar;
    - [Services]   : app.component.ts, the services carousel.
    The facts about each follow in [AdapterFacts], [Float64Facts],
    [RockerFacts], [NavigationFacts] and [ServicesFacts].

    The particle engine and the browser are external: calls into them are
    recorded as effects, and what they answer (a promise settling, a method
    throwing, an animation frame firing) arrives as an event. *)

From Stdlib Require Import List Bool Arith ZArith QArith String Lia.
From Stdlib Require Floats.
From Stdlib Require Lqa.
Import ListNotations.

(* ================================================================== *)
(** * Part I: the embedding *)
(* ================================================================== *)

(** ** header-particles.component.ts: the lifecycle adapter *)

Module Adapter.
Local Open Scope nat_scope.

(** A [Container] of the engine, known to the component only as a handle. *)
Definition Container := nat.

(** The methods the component calls on a container. *)
Inductive EngineOp := OpPlay | OpStop | OpDestroy | OpRefresh.

(** The awaited set-up calls that precede [tsParticles.load], in source
    order; the last two are the [addParticleUpdater] calls of
    [enableFeatures]. *)
Inductive Loader :=
| LoadBasic | LoadImageShape | LoadExternalPush | LoadExternalRepulse
| LoadParticlesLinks | AddRockerSmooth | AddRockerStep.

Definition next_loader (l : Loader) : option Loader :=
  match l with
  | LoadBasic => Some LoadImageShape
  | LoadImageShape => Some LoadExternalPush
  | LoadExternalPush => Some LoadExternalRepulse
  | LoadExternalRepulse => Some LoadParticlesLinks
  | LoadParticlesLinks => Some AddRockerSmooth
  | AddRockerSmooth => Some AddRockerStep
  | AddRockerStep => None
  end.

(** What the component does to the outside world. *)
Inductive Effect :=
| FxLoad (l : Loader)                      (* a set-up call is issued *)
| FxConstruct                              (* tsParticles.load({...}) is issued *)
| FxCall (c : Container) (op : EngineOp)   (* c.play() / stop() / destroy() / refresh() *)
| FxRequestFrame (h : nat)                 (* requestAnimationFrame, returning h *)
| FxCancelFrame (h : nat)                  (* cancelAnimationFrame(h) *)
| FxConsoleError.                          (* console.error('tsParticles init failed:', err) *)

(** How a promise settles. *)
Inductive Settlement := Resolved (c : option Container) | Rejected.

(** [initPromise], when set: where the async arrow of ngAfterViewInit is
    suspended, or how it settled. *)
Inductive Progress :=
| AwaitLoad (l : Loader)
| AwaitConstruct
| Settled (s : Settlement).

(** The component's fields, and the browser's queue of animation-frame
    callbacks it has registered. *)
Record State := mkState {
  platformBrowser : bool;          (* isPlatformBrowser(this.platformId) *)
  container : option Container;
  initPromise : option Progress;
  destroyed : bool;
  resizeRaf : option nat;
  rafQueue : list nat;             (* browser: pending callbacks, by handle *)
  nextRaf : nat                    (* browser: next handle to hand out *)
}.

Definition init (browser : bool) : State :=
  mkState browser None None false None [] 1.

Definition set_container (c : option Container) (s : State) : State :=
  mkState (platformBrowser s) c (initPromise s) (destroyed s) (resizeRaf s)
          (rafQueue s) (nextRaf s).

Definition set_initPromise (p : option Progress) (s : State) : State :=
  mkState (platformBrowser s) (container s) p (destroyed s) (resizeRaf s)
          (rafQueue s) (nextRaf s).

Definition set_destroyed (d : bool) (s : State) : State :=
  mkState (platformBrowser s) (container s) (initPromise s) d (resizeRaf s)
          (rafQueue s) (nextRaf s).

Definition set_resizeRaf (r : option nat) (s : State) : State :=
  mkState (platformBrowser s) (container s) (initPromise s) (destroyed s) r
          (rafQueue s) (nextRaf s).

Definition set_rafQueue (q : list nat) (s : State) : State :=
  mkState (platformBrowser s) (container s) (initPromise s) (destroyed s)
          (resizeRaf s) q (nextRaf s).

Definition set_nextRaf (n : nat) (s : State) : State :=
  mkState (platformBrowser s) (container s) (initPromise s) (destroyed s)
          (resizeRaf s) (rafQueue s) n.

(** The result of a statement that may throw. *)
Inductive Outcome := Normal | Throw.

(** [c?.op()]: nothing on null; otherwise the call is made and the engine
    decides whether it throws. *)
Definition call (throws : EngineOp -> bool) (c : option Container)
    (op : EngineOp) : list Effect * Outcome :=
  match c with
  | None => ([], Normal)
  | Some k => ([FxCall k op], if throws op then Throw else Normal)
  end.

Definition settle (r : Settlement) (s : State) : State :=
  set_initPromise (Some (Settled r)) s.

(** ngAfterViewInit, up to the first await of the async arrow. *)
Definition ngAfterViewInit (s : State) : State * list Effect :=
  if negb (platformBrowser s) then (s, [])
  else match initPromise s with
       | Some _ => (s, [])
       | None => (set_initPromise (Some (AwaitLoad LoadBasic)) s,
                  [FxLoad LoadBasic])
       end.

(** The arrow resumes after an awaited set-up call: on rejection the catch
    block logs and returns null; after the last one the destroyed flag is
    checked ("abort early") before [tsParticles.load] is issued. *)
Definition resume_load (ok : bool) (l : Loader) (s : State)
    : State * list Effect :=
  if negb ok then (settle (Resolved None) s, [FxConsoleError])
  else match next_loader l with
       | Some l' => (set_initPromise (Some (AwaitLoad l')) s, [FxLoad l'])
       | None =>
           if destroyed s then (settle (Resolved None) s, [])
           else (set_initPromise (Some AwaitConstruct) s, [FxConstruct])
       end.

(** The arrow resumes after [await tsParticles.load(...)]. *)
Definition resume_construct (r : Settlement) (throws : EngineOp -> bool)
    (s : State) : State * list Effect :=
  match r with
  | Rejected => (settle (Resolved None) s, [FxConsoleError])
  | Resolved oc =>
      if destroyed s then
        let '(fx, o) := call throws oc OpDestroy in
        match o with
        | Normal => (settle (Resolved None) s, fx)
        | Throw => (settle (Resolved None) s, fx ++ [FxConsoleError])
        end
      else
        let s1 := set_container oc s in
        let '(fx, o) := call throws oc OpPlay in
        match o with
        | Normal => (settle (Resolved oc) s1, fx)
        | Throw => (settle (Resolved None) s1, fx ++ [FxConsoleError])
        end
  end.

(** onWindowResized. *)
Definition onWindowResized (s : State) : State * list Effect :=
  match container s with
  | None => (s, [])
  | Some _ =>
      match resizeRaf s with
      | Some _ => (s, [])
      | None =>
          let h := nextRaf s in
          (set_resizeRaf (Some h)
             (set_rafQueue (rafQueue s ++ [h]) (set_nextRaf (S h) s)),
           [FxRequestFrame h])
      end
  end.

(** The callback handed to requestAnimationFrame. *)
Definition raf_callback (throws : EngineOp -> bool) (s : State)
    : State * list Effect :=
  let s1 := set_resizeRaf None s in
  (s1, fst (call throws (container s1) OpRefresh)).

(** A rendering frame: the browser runs the callbacks that were pending
    when the frame began. *)
Fixpoint run_callbacks (throws : EngineOp -> bool) (q : list nat) (s : State)
    : State * list Effect :=
  match q with
  | [] => (s, [])
  | _ :: q' =>
      let '(s1, fx1) := raf_callback throws s in
      let '(s2, fx2) := run_callbacks throws q' s1 in
      (s2, fx1 ++ fx2)
  end.

Definition frame (throws : EngineOp -> bool) (s : State)
    : State * list Effect :=
  run_callbacks throws (rafQueue s) (set_rafQueue [] s).

(** ngOnDestroy. *)
Definition ngOnDestroy (throws : EngineOp -> bool) (s : State)
    : State * list Effect :=
  let s1 := set_destroyed true s in
  let '(s2, fx_raf) :=
    match resizeRaf s1 with
    | Some h =>
        (set_resizeRaf None
           (set_rafQueue (filter (fun k => negb (Nat.eqb k h)) (rafQueue s1)) s1),
         [FxCancelFrame h])
    | None => (s1, [])
    end in
  let '(fx_stop, o) := call throws (container s2) OpStop in
  let fx_try :=
    match o with
    | Normal => fx_stop ++ fst (call throws (container s2) OpDestroy)
    | Throw => fx_stop
    end in
  (set_container None s2, fx_raf ++ fx_try).

(** What can happen to the component. *)
Inductive Event :=
| EvViewInit                                   (* Angular calls ngAfterViewInit *)
| EvLoadSettled (ok : bool)                    (* the awaited set-up call settles *)
| EvConstructSettled (r : Settlement) (throws : EngineOp -> bool)
                                               (* tsParticles.load settles *)
| EvResize                                     (* window:resize *)
| EvFrame (throws : EngineOp -> bool)          (* the browser renders a frame *)
| EvDestroy (throws : EngineOp -> bool).       (* Angular calls ngOnDestroy *)

(** One event; [None] when the event cannot happen in that state (a promise
    that is not pending does not settle). *)
Definition step (s : State) (e : Event) : option (State * list Effect) :=
  match e with
  | EvViewInit => Some (ngAfterViewInit s)
  | EvLoadSettled ok =>
      match initPromise s with
      | Some (AwaitLoad l) => Some (resume_load ok l s)
      | _ => None
      end
  | EvConstructSettled r th =>
      match initPromise s with
      | Some AwaitConstruct => Some (resume_construct r th s)
      | _ => None
      end
  | EvResize => Some (onWindowResized s)
  | EvFrame th => Some (frame th s)
  | EvDestroy th => Some (ngOnDestroy th s)
  end.

Fixpoint run (s : State) (evs : list Event) : option (State * list Effect) :=
  match evs with
  | [] => Some (s, [])
  | e :: evs' =>
      match step s e with
      | None => None
      | Some (s1, fx1) =>
          match run s1 evs' with
          | None => None
          | Some (s2, fx2) => Some (s2, fx1 ++ fx2)
          end
      end
  end.

(** Observations on a log of effects. *)
Definition is_call (op : EngineOp) (f : Effect) : bool :=
  match f, op with
  | FxCall _ OpPlay, OpPlay | FxCall _ OpStop, OpStop
  | FxCall _ OpDestroy, OpDestroy | FxCall _ OpRefresh, OpRefresh => true
  | _, _ => false
  end.

Definition is_begin (f : Effect) : bool :=
  match f with FxLoad LoadBasic => true | _ => false end.

Definition is_construct (f : Effect) : bool :=
  match f with FxConstruct => true | _ => false end.

Definition is_request (f : Effect) : bool :=
  match f with FxRequestFrame _ => true | _ => false end.

Definition count (p : Effect -> bool) (log : list Effect) : nat :=
  List.length (filter p log).

Definition is_construct_settled (e : Event) : bool :=
  match e with EvConstructSettled _ _ => true | _ => false end.

(** Engines whose methods never throw, or always do. *)
Definition never (_ : EngineOp) : bool := false.
Definition always (_ : EngineOp) : bool := true.

(** The view is initialized in a browser and every set-up call resolves:
    [tsParticles.load] is in flight. *)
Definition activation : list Event :=
  EvViewInit :: repeat (EvLoadSettled true) 7.

(** Then the engine hands over container 7, which is played, and the
    window is resized once: a refresh is scheduled. *)
Definition running : list Event :=
  [EvConstructSettled (Resolved (Some 7)) never; EvResize].

Definition playing : State :=
  mkState true (Some 7) (Some (Settled (Resolved (Some 7)))) false
          (Some 1) [1] 2.

Definition playing_log : list Effect :=
  [FxLoad LoadBasic; FxLoad LoadImageShape; FxLoad LoadExternalPush;
   FxLoad LoadExternalRepulse; FxLoad LoadParticlesLinks;
   FxLoad AddRockerSmooth; FxLoad AddRockerStep; FxConstruct;
   FxCall 7 OpPlay; FxRequestFrame 1].

(** Or else the view is torn down while [tsParticles.load] is in flight,
    and only then the engine hands over container 7. *)
Definition race : list Event :=
  [EvDestroy never; EvConstructSettled (Resolved (Some 7)) never].

Definition race_log : list Effect :=
  [FxLoad LoadBasic; FxLoad LoadImageShape; FxLoad LoadExternalPush;
   FxLoad LoadExternalRepulse; FxLoad LoadParticlesLinks;
   FxLoad AddRockerSmooth; FxLoad AddRockerStep; FxConstruct;
   FxCall 7 OpDestroy].

(** Or else [tsParticles.load] resolves to no container. *)
Definition no_container : list Event :=
  [EvConstructSettled (Resolved None) never].

Definition no_container_log : list Effect :=
  [FxLoad LoadBasic; FxLoad LoadImageShape; FxLoad LoadExternalPush;
   FxLoad LoadExternalRepulse; FxLoad LoadParticlesLinks;
   FxLoad AddRockerSmooth; FxLoad AddRockerStep; FxConstruct].

(** An instance is stopped and released when both [stop()] and
    [destroy()] have been called on it. *)
Definition stopped_and_released (c : Container) (log : list Effect) : Prop :=
  In (FxCall c OpStop) log /\ In (FxCall c OpDestroy) log.

(** A failure has been logged. *)
Definition logged (log : list Effect) : Prop := In FxConsoleError log.

(** The events that hand a container to the component. *)
Definition hands_over (e : Event) : bool :=
  match e with
  | EvConstructSettled (Resolved (Some _)) _ => true
  | _ => false
  end.

(** What is still to happen at most once in a state: the start of an
    initialization, the construction request, its settlement, and the
    scheduling of a refresh. *)
Definition started (s : State) : nat :=
  match initPromise s with None => 0 | Some _ => 1 end.

Definition construct_budget (s : State) : nat :=
  match initPromise s with
  | None | Some (AwaitLoad _) => 1
  | Some AwaitConstruct | Some (Settled _) => 0
  end.

Definition settle_budget (s : State) : nat :=
  match initPromise s with Some (Settled _) => 0 | _ => 1 end.

Definition slots (s : State) : nat :=
  match resizeRaf s with None => 1 | Some _ => 0 end.

(** *** Predicates on states *)

(** What every reachable state satisfies: a container is stored only once
    the initialization has settled and never after ngOnDestroy, and the
    browser's pending callback is the one [resizeRaf] names. *)
Definition Inv (s : State) : Prop :=
  (forall c, container s = Some c ->
     destroyed s = false /\ exists r, initPromise s = Some (Settled r)) /\
  rafQueue s = match resizeRaf s with Some h => [h] | None => [] end /\
  (resizeRaf s <> None -> container s <> None).

(** The state ngOnDestroy leaves behind. *)
Definition TornDown (s : State) : Prop :=
  destroyed s = true /\ container s = None /\ resizeRaf s = None /\
  rafQueue s = [].

(** No container is stored and no refresh is scheduled. *)
Definition Quiet (s : State) : Prop :=
  container s = None /\ resizeRaf s = None /\ rafQueue s = [].

(** *** Proof automation for the handlers *)

(** Case analysis on the next [match] or [if] of the goal or a hypothesis. *)
Ltac split_match :=
  match goal with
  | H : context [match ?x with _ => _ end] |- _ => destruct x eqn:?
  | |- context [match ?x with _ => _ end] => destruct x eqn:?
  end.

Ltac unfold_handlers :=
  unfold step, ngAfterViewInit, resume_load, resume_construct,
    onWindowResized, frame, ngOnDestroy, raf_callback, call, settle,
    set_container, set_initPromise, set_destroyed, set_resizeRaf,
    set_rafQueue, set_nextRaf in *.

Ltac solve_inv Hc :=
  split; [| split]; simpl; auto;
  try (let F := fresh "F" in intros F; try (now elim F); discriminate);
  try (let c0 := fresh "c" in
       let E := fresh "E" in
       intros c0 E; try discriminate;
       try (destruct (Hc c0 E) as [? [? ?]]; try discriminate);
       split; eauto).

End Adapter.

(** ** JavaScript numbers

    A JavaScript number is an IEEE 754 binary64 value.  The updaters of
    header-particles.component.ts are embedded over Rocq's primitive
    floats, whose [+], [-], [*], [/] and comparisons round and compare as
    the code's do, NaN, the infinities and the two zeros included. *)

Module Float64.
Import PrimFloat FloatOps SpecFloat FloatAxioms.
Local Open Scope float_scope.

(** [Math.PI] *)
Definition PI : float := 0x1.921fb54442d18p+1.

(** The remainder of two finite doubles other than zero, computed on
    their integer significands at the smaller of the two exponents.  It
    is a double again, with the sign of the dividend. *)
Definition rem_exact (n d : float) : float :=
  match Prim2SF n, Prim2SF d with
  | S754_finite sn mn en, S754_finite _ md ed =>
      let e := Z.min en ed in
      let N := (Z.pos mn * 2 ^ (en - e))%Z in
      let D := (Z.pos md * 2 ^ (ed - e))%Z in
      match (N mod D)%Z with
      | Z.pos r => SF2Prim (S754_finite sn r e)
      | _ => if sn then neg_zero else zero
      end
  | _, _ => nan
  end.

(** [n % d]: NaN for a NaN operand, an infinite dividend or a zero
    divisor; the dividend for an infinite divisor or a zero dividend; else
    [n - d * q] for the integer [q] that [n / d] truncates to, which is 0
    and leaves [n] when [n] is the smaller in size. *)
Definition js_rem (n d : float) : float :=
  if is_nan n || is_nan d then nan
  else if is_infinity n then nan
  else if is_infinity d then n
  else if is_zero d then nan
  else if is_zero n then n
  else if abs n <? abs d then n
  else rem_exact n d.

(** A binary64 value that is NaN, a zero, or above zero. *)
Definition unsigned (x : spec_float) : Prop :=
  match x with
  | S754_nan | S754_zero _ => True
  | S754_infinity s | S754_finite s _ _ => s = false
  end.

(** Comparisons of doubles, read on their sign, exponent and significand. *)
Ltac to_spec :=
  rewrite ?ltb_spec, ?leb_spec, ?eqb_spec, ?abs_spec in *;
  change (Prim2SF 0) with (S754_zero false) in *;
  change (Prim2SF infinity) with (S754_infinity false) in *;
  change (Prim2SF nan) with S754_nan in *.

Ltac sf_cases :=
  unfold SFleb, SFltb, SFeqb in *;
  repeat match goal with
  | H : context [Prim2SF ?x] |- _ =>
      is_var x; destruct (Prim2SF x) as [[|]|[|]| |[|] ? ?]
  | |- context [Prim2SF ?x] =>
      is_var x; destruct (Prim2SF x) as [[|]|[|]| |[|] ? ?]
  end;
  cbn in *; try discriminate; try reflexivity.

Ltac cmp_cases :=
  change (PosDef.Pos.compare_cont Eq ?a ?b) with (Pos.compare a b) in *;
  repeat match goal with
  | H : context [(?a ?= ?b)%Z] |- _ => destruct (Z.compare_spec a b)
  | |- context [(?a ?= ?b)%Z] => destruct (Z.compare_spec a b)
  | H : context [(?a ?= ?b)%positive] |- _ => destruct (Pos.compare_spec a b)
  | |- context [(?a ?= ?b)%positive] => destruct (Pos.compare_spec a b)
  end;
  cbn in *; try discriminate; try reflexivity; try lia.

End Float64.

(** ** header-particles.component.ts: the two particle updaters

    [Math.sin] and [Math.random] belong to the runtime: an updater is
    given the sine function and the number [Math.random()] answers. *)

Module Rocker.
Import PrimFloat Float64.
Local Open Scope float_scope.

(** The fields the component adds to the engine's IImage. *)
Record RockerSmooth := mkSmooth {
  smooth_enabled : option bool;
  minDeg : option float;
  maxDeg : option float;
  periodSec : option float
}.

Record RockerStep := mkStep {
  step_enabled : option bool;
  lowDeg : option float;
  highDeg : option float;
  holdSec : option float
}.

Record IImage := mkImage {
  rockerSmooth : option RockerSmooth;
  rockerStep : option RockerStep
}.

(** A particle, as far as the updaters touch it: [__rock] and [__rockStep]
    hold the private [{ t }] objects, absent until the first update. *)
Record Particle := mkParticle {
  shapeData : option IImage;
  __rock : option float;
  __rockStep : option float;
  rotation : float
}.

(** [o ?? d] *)
Definition nullish {A : Type} (o : option A) (d : A) : A :=
  match o with Some v => v | None => d end.

(** [o?.f] *)
Definition chain {A B : Type} (o : option A) (f : A -> option B) : option B :=
  match o with Some v => f v | None => None end.

(** [!!b] on an optional boolean *)
Definition truthy (o : option bool) : bool := nullish o false.

Definition smooth_isEnabled (p : Particle) : bool :=
  truthy (chain (chain (shapeData p) rockerSmooth) smooth_enabled).

Definition step_isEnabled (p : Particle) : bool :=
  truthy (chain (chain (shapeData p) rockerStep) step_enabled).

(** [img?.rockerSmooth ?? {}] and [img?.rockerStep ?? {}] *)
Definition smooth_cfg (p : Particle) : RockerSmooth :=
  nullish (chain (shapeData p) rockerSmooth) (mkSmooth None None None None).

Definition step_cfg (p : Particle) : RockerStep :=
  nullish (chain (shapeData p) rockerStep) (mkStep None None None None).

(** The degrees computed by the rockerSmooth updater at private time [t]. *)
Definition smooth_deg (Math_sin : float -> float) (a0 a1 period t : float)
    : float :=
  let center := (a0 + a1) / 2 in
  let amp := (a1 - a0) / 2 in
  let omega := (2 * PI) / period in
  center + amp * Math_sin (omega * t).

(** rockerSmooth: [update(p, delta)]; [random] is what [Math.random()]
    answers if it is asked (only when [__rock] is absent). *)
Definition smooth_update (Math_sin : float -> float) (random : float)
    (p : Particle) (delta_value : float) : Particle :=
  if negb (smooth_isEnabled p) then p
  else
    let cfg := smooth_cfg p in
    let a0 := nullish (minDeg cfg) 0 in
    let a1 := nullish (maxDeg cfg) 30 in
    let period := nullish (periodSec cfg) 4 in
    let t0 := nullish (__rock p) (random * period) in
    let t := t0 + delta_value / 1000 in
    let deg := smooth_deg Math_sin a0 a1 period t in
    mkParticle (shapeData p) (Some t) (__rockStep p) ((deg * PI) / 180).

(** The degrees chosen by the rockerStep updater at private time [t]; a
    comparison with NaN is false. *)
Definition step_deg (aLow aHigh hold t : float) : float :=
  let cycle := 2 * hold in
  let phase := js_rem t cycle in
  if phase <? hold then aLow else aHigh.

(** rockerStep: [update(p, delta)]. *)
Definition step_update (p : Particle) (delta_value : float) : Particle :=
  if negb (step_isEnabled p) then p
  else
    let cfg := step_cfg p in
    let aLow := nullish (lowDeg cfg) 0 in
    let aHigh := nullish (highDeg cfg) 30 in
    let hold := nullish (holdSec cfg) 2 in
    let t0 := nullish (__rockStep p) 0 in
    let t := t0 + delta_value / 1000 in
    let deg := step_deg aLow aHigh hold t in
    mkParticle (shapeData p) (__rock p) (Some t) ((deg * PI) / 180).

(** The engine calls an updater once per frame, with that frame's delta. *)
Definition frames (update : Particle -> float -> Particle) (p : Particle)
    (deltas : list float) : Particle :=
  fold_left update deltas p.

(** The private time after the frames, from [t0]: each frame adds its
    delta in seconds, rounded as the code's [st.t += delta.value / 1000]. *)
Definition elapsed (t0 : float) (deltas : list float) : float :=
  fold_left (fun t d => t + d / 1000) deltas t0.

(** The deltas of the frames added up, in milliseconds. *)
Definition total (deltas : list float) : float :=
  fold_left (fun s d => s + d) deltas 0.

(** A particle as the engine creates it for an image shape with the given
    options, before any update. *)
Definition fresh (img : IImage) : Particle :=
  mkParticle (Some img) None None 0.

(** The image options of the component's configuration:
    [rockerSmooth: {enabled: true, minDeg: 0, maxDeg: 25, periodSec: 3}]. *)
Definition leaf : IImage :=
  mkImage (Some (mkSmooth (Some true) (Some 0) (Some 25) (Some 3))) None.

(** Image options that switch the stepped updater on, with its defaults
    (0 and 30 degrees, held for 2 seconds). *)
Definition stepping : IImage :=
  mkImage None (Some (mkStep (Some true) None None None)).

(** Image options with a stepped oscillation between 10 and 45 degrees,
    held for 1 second. *)
Definition ticking : IImage :=
  mkImage None (Some (mkStep (Some true) (Some 10) (Some 45) (Some 1))).

(** Image options with a stepped oscillation whose hold is 0. *)
Definition frozen : IImage :=
  mkImage None (Some (mkStep (Some true) (Some 10) (Some 45) (Some 0))).

(** Image options with a smooth oscillation whose period is 0. *)
Definition still : IImage :=
  mkImage (Some (mkSmooth (Some true) (Some 0) (Some 25) (Some 0))) None.

(** The settings an updater reads from a particle, defaults filled in. *)
Definition a0_of (p : Particle) : float := nullish (minDeg (smooth_cfg p)) 0.
Definition a1_of (p : Particle) : float := nullish (maxDeg (smooth_cfg p)) 30.
Definition period_of (p : Particle) : float :=
  nullish (periodSec (smooth_cfg p)) 4.
Definition low_of (p : Particle) : float := nullish (lowDeg (step_cfg p)) 0.
Definition high_of (p : Particle) : float := nullish (highDeg (step_cfg p)) 30.
Definition hold_of (p : Particle) : float := nullish (holdSec (step_cfg p)) 2.

(** The center angle and the amplitude of the smooth oscillation, in
    degrees, its angular speed, and the cycle of the stepped one. *)
Definition center_of (p : Particle) : float := (a0_of p + a1_of p) / 2.
Definition amp_of (p : Particle) : float := (a1_of p - a0_of p) / 2.
Definition omega_of (p : Particle) : float := (2 * PI) / period_of p.
Definition cycle_of (p : Particle) : float := 2 * hold_of p.

(** The spec's words for the two conversions: an angle in degrees as
    radians (180 degrees are PI), a duration in milliseconds as seconds. *)
Definition radians_of_degrees (d : float) : float := (d * PI) / 180.
Definition seconds_of_millis (ms : float) : float := ms / 1000.

(** A sine known at the listed arguments only, NaN elsewhere. *)
Definition answers (table : list (float * float)) (x : float) : float :=
  match find (fun e => fst e =? x) table with
  | Some e => snd e
  | None => nan
  end.

(** What [Math.sin] answers at the two arguments the examples reach:
    1 at 7.853981633974482 and -2.4492935982947064e-16 at
    6.283185307179586. *)
Definition sin_answers : float -> float :=
  answers [(0x1.f6a7a2955385dp+2, 1);
           (0x1.921fb54442d18p+2, - 0x1.1a62633145c07p-52)].

End Rocker.

(** ** navigation.component.ts

    Lengths are rationals; the DOM is what the component reads from it. *)

Module Navigation.
Local Open Scope string_scope.
Local Open Scope Q_scope.

Record NavItem := mkItem {
  label : string;
  path : string;
  scrollTarget : string;
  isActive : bool
}.

(** An element, by its [getBoundingClientRect()]. *)
Record Element := mkElement { rect_top : Q; rect_height : Q }.

(** [window] and [document]; selectors are taken to be well formed, so
    that [querySelector] answers an element or null. *)
Record Window := mkWindow {
  scrollY : Q;
  innerHeight : Q;
  querySelector : string -> option Element
}.

Record State := mkState {
  navigationItems : list NavItem;
  isMobileMenuOpen : bool;
  currentActiveSection : string
}.

Definition initial : State :=
  mkState
    [ mkItem "Home" "#home" "top" false;
      mkItem "Gallery" "#gallery" "gallery-section" false;
      mkItem "Services" "#services" "services-section" false;
      mkItem "About Me" "#about-me" "about-me-section" false ]
    false "top".

Inductive Effect :=
| FxLog (p : string)                 (* console.log('Navigating to:', path) *)
| FxPreventDefault
| FxScrollToTop                      (* window.scrollTo({top: 0, ...}) *)
| FxScrollIntoView (e : Element)
| FxWarn (target : string).          (* console.warn(`Section with target ...`) *)

Definition setActiveSection (sectionId : string) (s : State) : State :=
  mkState
    (map (fun item =>
            mkItem (label item) (path item) (scrollTarget item)
                   (String.eqb (scrollTarget item) sectionId))
         (navigationItems s))
    (isMobileMenuOpen s)
    sectionId.

Definition or_else (o : option Element) (k : option Element) : option Element :=
  match o with Some _ => o | None => k end.

Definition resolve (w : Window) (sectionTarget : string) : option Element :=
  or_else (or_else (querySelector w ("#" ++ sectionTarget))
                   (querySelector w ("." ++ sectionTarget)))
          (querySelector w sectionTarget).

Definition scrollToSection (w : Window) (sectionTarget : string)
    : list Effect :=
  match resolve w sectionTarget with
  | Some element => [FxScrollIntoView element]
  | None => [FxWarn sectionTarget]
  end.

(** [onNavigationClick(item, event?)]; [event] says whether an event was
    passed. *)
Definition onNavigationClick (w : Window) (item : NavItem) (event : bool)
    (s : State) : State * list Effect :=
  let fx_log := [FxLog (path item)] in
  let fx_event := if event then [FxPreventDefault] else [] in
  let fx_scroll :=
    if String.eqb (scrollTarget item) "top" then [FxScrollToTop]
    else if negb (String.eqb (scrollTarget item) "")
         then scrollToSection w (scrollTarget item)
         else [] in
  let s1 := mkState (navigationItems s) false (currentActiveSection s) in
  (setActiveSection (scrollTarget item) s1,
   (fx_log ++ fx_event ++ fx_scroll)%list).

Definition Qlt_bool (x y : Q) : bool := negb (Qle_bool y x).

Definition sectionIds : list string :=
  ["gallery-section"; "services-section"; "about-me-section"].

Definition sections (w : Window) : list (string * option Element) :=
  map (fun id => (id, querySelector w ("#" ++ id))) sectionIds.

(** Whether the viewport's middle lies within the element's extent in the
    document. *)
Definition in_view (w : Window) (viewportMiddle : Q) (el : Element) : bool :=
  let elementTop := rect_top el + scrollY w in
  let elementBottom := elementTop + rect_height el in
  Qle_bool elementTop viewportMiddle && Qle_bool viewportMiddle elementBottom.

(** The for-of loop with its break. *)
Fixpoint scan (w : Window) (viewportMiddle : Q)
    (secs : list (string * option Element)) (activeSection : string)
    : string :=
  match secs with
  | [] => activeSection
  | (id, None) :: rest => scan w viewportMiddle rest activeSection
  | (id, Some el) :: rest =>
      if in_view w viewportMiddle el then id
      else scan w viewportMiddle rest activeSection
  end.

Definition updateActiveSection (w : Window) (s : State) : State :=
  let scrollPosition := scrollY w in
  if Qlt_bool scrollPosition 100 then setActiveSection "top" s
  else
    let viewportMiddle := scrollY w + innerHeight w / 2 in
    let activeSection := scan w viewportMiddle (sections w) "top" in
    if negb (String.eqb activeSection (currentActiveSection s))
    then setActiveSection activeSection s
    else s.

(** The section the function settles on, whether or not it writes it. *)
Definition computedSection (w : Window) : string :=
  if Qlt_bool (scrollY w) 100 then "top"
  else scan w (scrollY w + innerHeight w / 2) (sections w) "top".


(** The list is the one of the component, whatever its flags. *)
Definition same_links (s : State) : Prop :=
  map scrollTarget (navigationItems s) = map scrollTarget (navigationItems initial).

(** A page without any of the sections, scrolled to its top. *)
Definition empty_page : Window := mkWindow 0 800 (fun _ => None).


(** The Gallery link. *)
Definition gallery : NavItem :=
  mkItem "Gallery" "#gallery" "gallery-section" false.

End Navigation.

(** ** app.component.ts: the services carousel

    [currentServiceIndex] is a JavaScript number that holds an integer,
    modelled as an integer of [Z].  The two agree on the integers up to
    2^53 in size, where [+ 1] and [- 1] are exact in doubles; from there
    on a double rounds, and only the order of the index against 0 and the
    length of the array is the same.  The facts about an index outside
    the array use no more than that order. *)

Module Services.
Local Open Scope Z_scope.

(** [this.services.length]: the array literal has three entries and is
    never written. *)
Definition services : list string := ["stickers"; "game-assets"; "websites"]%string.

Definition services_length : Z := Z.of_nat (List.length services).

Record State := mkState {
  currentServiceIndex : Z;
  isServicesAutoPlay : bool;
  servicesInterval : option nat;       (* the handle last stored *)
  intervals : list nat;                (* browser: intervals still running *)
  nextInterval : nat                   (* browser: next handle *)
}.

Definition initial : State := mkState 0 true None [] 1.

Definition startServicesAutoPlay (s : State) : State :=
  if isServicesAutoPlay s then
    let h := nextInterval s in
    mkState (currentServiceIndex s) (isServicesAutoPlay s) (Some h)
            (h :: intervals s) (S h)
  else s.

Definition clearInterval (h : nat) (s : State) : State :=
  mkState (currentServiceIndex s) (isServicesAutoPlay s) (servicesInterval s)
          (filter (fun k => negb (Nat.eqb k h)) (intervals s)) (nextInterval s).

Definition resetServicesAutoPlay (s : State) : State :=
  startServicesAutoPlay
    (match servicesInterval s with
     | Some h => clearInterval h s
     | None => s
     end).

Definition set_index (i : Z) (s : State) : State :=
  mkState i (isServicesAutoPlay s) (servicesInterval s) (intervals s)
          (nextInterval s).

Definition goToService (index : Z) (s : State) : State :=
  resetServicesAutoPlay (set_index index s).

Definition previousService (s : State) : State :=
  resetServicesAutoPlay
    (set_index (if 0 <? currentServiceIndex s
                then currentServiceIndex s - 1
                else services_length - 1) s).

Definition nextService (s : State) : State :=
  resetServicesAutoPlay
    (set_index (if currentServiceIndex s <? services_length - 1
                then currentServiceIndex s + 1
                else 0) s).

Definition toggleServicesAutoPlay (s : State) : State :=
  let s1 := mkState (currentServiceIndex s) (negb (isServicesAutoPlay s))
                    (servicesInterval s) (intervals s) (nextInterval s) in
  if isServicesAutoPlay s1 then startServicesAutoPlay s1
  else match servicesInterval s1 with
       | Some h => clearInterval h s1
       | None => s1
       end.

(** The calls the template and the interval timer make. *)
Inductive Call :=
| GoTo (index : Z)
| Previous
| Next
| Toggle
| Init         (* ngOnInit: startServicesAutoPlay *)
| Tick.        (* a running interval fires: it calls nextService *)

Definition exec (s : State) (c : Call) : State :=
  match c with
  | GoTo i => goToService i s
  | Previous => previousService s
  | Next => nextService s
  | Toggle => toggleServicesAutoPlay s
  | Init => startServicesAutoPlay s
  | Tick => match intervals s with [] => s | _ :: _ => nextService s end
  end.

(** The calls the claim admits: goToService only with an index of the
    array. *)
Definition admissible (c : Call) : Prop :=
  match c with
  | GoTo i => 0 <= i < services_length
  | _ => True
  end.

(** The index is one of the array. *)
Definition in_bounds (s : State) : Prop :=
  0 <= currentServiceIndex s < services_length.

End Services.

(** ** header-particles.component.ts: observations on whole runs *)

Module Lifecycle.
Import Adapter.
Local Open Scope nat_scope.

(** The set-up calls and the construction request in a log. *)
Definition is_setup (f : Effect) : bool :=
  match f with FxLoad _ | FxConstruct => true | _ => false end.

(** What the async arrow issues after the set-up call [l] has resolved,
    following the source order to the construction request. *)
Fixpoint following (fuel : nat) (l : Loader) : list Effect :=
  match fuel with
  | 0 => []
  | S fuel' =>
      match next_loader l with
      | Some l' => FxLoad l' :: following fuel' l'
      | None => [FxConstruct]
      end
  end.

(** The whole start-up sequence of the try block. *)
Definition startup : list Effect := FxLoad LoadBasic :: following 7 LoadBasic.

(** What of it is still to come in a state, at most. *)
Definition remaining (s : State) : list Effect :=
  match initPromise s with
  | None => startup
  | Some (AwaitLoad l) => following 7 l
  | Some AwaitConstruct | Some (Settled _) => []
  end.

Definition is_cancel (f : Effect) : bool :=
  match f with FxCancelFrame _ => true | _ => false end.

(** The number of animation-frame callbacks the component has pending. *)
Definition pending (s : State) : nat :=
  match resizeRaf s with Some _ => 1 | None => 0 end.

(** How often [stop()] and [destroy()] can still be called. *)
Definition release_budget (s : State) : nat :=
  match container s with
  | Some _ => 1
  | None => settle_budget s
  end.

(** An engine on which only [stop()] throws. *)
Definition stop_throws (op : EngineOp) : bool :=
  match op with OpStop => true | _ => false end.

(** An engine on which only [play()] throws. *)
Definition play_throws (op : EngineOp) : bool :=
  match op with OpPlay => true | _ => false end.

(** The state in which [tsParticles.load] is in flight, and the state a
    teardown leaves once the late container 7 has been destroyed. *)
Definition awaiting : State :=
  mkState true None (Some AwaitConstruct) false None [] 1.

Definition abandoned : State :=
  mkState true None (Some (Settled (Resolved None))) true None [] 1.

(** The state in which the first set-up call is awaited. *)
Definition loading : State :=
  mkState true None (Some (AwaitLoad LoadBasic)) false None [] 1.

End Lifecycle.

(** ** navigation.component.ts: the component with its scroll timer *)

Module Tracking.
Import Navigation.
Local Open Scope nat_scope.

Definition toggleMobileMenu (s : State) : State :=
  mkState (navigationItems s) (negb (isMobileMenuOpen s))
          (currentActiveSection s).

Definition isItemActive (item : NavItem) : bool := isActive item.

(** The component: the fields modelled in [Navigation.State], the handle
    in [scrollThrottle] (absent until the first scroll), and the browser's
    pending timeouts. *)
Record Component := mkComponent {
  nav : State;
  scrollThrottle : option nat;
  timers : list nat;
  nextTimer : nat
}.

Definition created : Component := mkComponent initial None [] 1.

Inductive Effect :=
| FxSetTimeout (h : nat)        (* setTimeout(..., 100), returning h *)
| FxClearTimeout (h : nat)      (* clearTimeout(h) *)
| FxRecomputed (h : nat)        (* timeout h elapsed: its callback ran *)
| FxPage (f : Navigation.Effect).

Definition drop (h : nat) (l : list nat) : list nat :=
  filter (fun k => negb (Nat.eqb k h)) l.

(** [if (this.scrollThrottle) clearTimeout(this.scrollThrottle)] *)
Definition clear_throttle (c : Component) : Component * list Effect :=
  match scrollThrottle c with
  | Some h =>
      (mkComponent (nav c) (scrollThrottle c) (drop h (timers c)) (nextTimer c),
       [FxClearTimeout h])
  | None => (c, [])
  end.

Definition ngOnInit (w : Window) (c : Component) : Component * list Effect :=
  (mkComponent (updateActiveSection w (nav c)) (scrollThrottle c) (timers c)
               (nextTimer c), []).

Definition ngOnDestroy (c : Component) : Component * list Effect :=
  clear_throttle c.

Definition onWindowScroll (c : Component) : Component * list Effect :=
  let '(c1, fx) := clear_throttle c in
  let h := nextTimer c1 in
  (mkComponent (nav c1) (Some h) (timers c1 ++ [h]) (S h),
   fx ++ [FxSetTimeout h]).

(** The oldest pending timeout elapses, with the page as it is then. *)
Definition timeout (w : Window) (c : Component) : Component * list Effect :=
  match timers c with
  | [] => (c, [])
  | h :: rest =>
      (mkComponent (updateActiveSection w (nav c)) (scrollThrottle c) rest
                   (nextTimer c),
       [FxRecomputed h])
  end.

Inductive Event :=
| EvInit (w : Window)
| EvScroll
| EvTimeout (w : Window)
| EvClick (w : Window) (item : NavItem) (event : bool)
| EvToggle
| EvDestroy.

Definition step (c : Component) (e : Event) : Component * list Effect :=
  match e with
  | EvInit w => ngOnInit w c
  | EvScroll => onWindowScroll c
  | EvTimeout w => timeout w c
  | EvClick w item event =>
      let '(s, fx) := onNavigationClick w item event (nav c) in
      (mkComponent s (scrollThrottle c) (timers c) (nextTimer c),
       map FxPage fx)
  | EvToggle =>
      (mkComponent (toggleMobileMenu (nav c)) (scrollThrottle c) (timers c)
                   (nextTimer c), [])
  | EvDestroy => ngOnDestroy c
  end.

Fixpoint run (c : Component) (evs : list Event) : Component * list Effect :=
  match evs with
  | [] => (c, [])
  | e :: evs' =>
      let '(c1, fx1) := step c e in
      let '(c2, fx2) := run c1 evs' in
      (c2, fx1 ++ fx2)
  end.

Definition is_recomputed (f : Effect) : bool :=
  match f with FxRecomputed _ => true | _ => false end.

Definition recomputations (log : list Effect) : nat :=
  List.length (filter is_recomputed log).

(** The number of links shown as active. *)
Definition active_count (s : State) : nat :=
  List.length (filter isActive (navigationItems s)).

(** At most the one pending timeout that [scrollThrottle] names. *)
Definition OneTimer (c : Component) : Prop :=
  timers c = [] \/ exists h, timers c = [h] /\ scrollThrottle c = Some h.

(** The links are the component's four, at most one of them is shown as
    active, and a link shown as active is the link of the current
    section. *)
Definition Highlight (s : State) : Prop :=
  same_links s /\
  active_count s <= 1 /\
  forall item, In item (navigationItems s) -> isActive item = true ->
               scrollTarget item = currentActiveSection s.

End Tracking.

(** ** app.component.ts: the carousel's timer, the gallery modal, the hero *)

Module Carousel.
Import Services.
Local Open Scope Z_scope.

(** The interval timer matches the auto-play switch: one interval, the one
    [servicesInterval] names, while auto-play is on, none while it is
    off. *)
Definition Ticking (s : State) : Prop :=
  if isServicesAutoPlay s
  then exists h, servicesInterval s = Some h /\ intervals s = [h]
  else intervals s = [].

(** The calls after ngOnInit. *)
Definition later (c : Call) : Prop :=
  match c with Init => False | _ => True end.

End Carousel.

Module Gallery.
Local Open Scope string_scope.
Local Open Scope Z_scope.

Record Image := mkImage {
  src : string;
  alt : string;
  title : string;
  description : string
}.

(** The double quote character. *)
Definition quote : string := String (Ascii.ascii_of_nat 34) EmptyString.

Definition galleryImages : list Image :=
  [ mkImage "Image/Anya.png" "Anya character artwork" "Anya"
      ("Art of Anya from the game " ++ quote ++ "Mouth Washing" ++ quote);
    mkImage "Image/BGFB2.png" "Background design 2" "City Rain Walk"
      "An Adventure into the imagination while walking in the city";
    mkImage "Image/HideAndSeek2.png" "Hide and Seek game artwork"
      "Hide and Seek" "Playful story of playing Hide and Seek with Ghosts";
    mkImage "Image/IziaFanart.png" "Izia fan art illustration" "Izia Fan Art"
      "Creative fan artwork for Iziarawr";
    mkImage "Image/SpoopyStore.png" "Spooky store design" "Spooky Store"
      "Ghost Kid Shopping in the Store for Holloween";
    mkImage "Image/ToshBG-1.png" "Tosh background design" "Tosh Background"
      "Background Art with ghost pets for Tosho" ]%list.

Definition gallery_length : Z := Z.of_nat (List.length galleryImages).

(** [this.galleryImages[i]]: undefined outside the array. *)
Definition at_index (i : Z) : option Image :=
  if i <? 0 then None else nth_error galleryImages (Z.to_nat i).

(** The modal's fields, [document.body.style.overflow] as far as the
    component has set it, and the number of [setTimeout] calls made for
    enforceGlobalImageConstraints. *)
Record State := mkState {
  isModalOpen : bool;
  selectedImage : option Image;
  selectedImageIndex : Z;
  bodyOverflow : option string;
  scheduled : nat
}.

Definition initial : State := mkState false None 0 None 0.

Definition openImageModal (image : Image) (index : Z) (s : State) : State :=
  mkState true (Some image) index (Some "hidden") (S (scheduled s)).

Definition closeImageModal (s : State) : State :=
  mkState false None (selectedImageIndex s) (Some "auto") (scheduled s).

Definition previousImage (s : State) : State :=
  if 0 <? selectedImageIndex s then
    mkState (isModalOpen s) (at_index (selectedImageIndex s - 1))
            (selectedImageIndex s - 1) (bodyOverflow s) (scheduled s)
  else s.

Definition nextImage (s : State) : State :=
  if selectedImageIndex s <? gallery_length - 1 then
    mkState (isModalOpen s) (at_index (selectedImageIndex s + 1))
            (selectedImageIndex s + 1) (bodyOverflow s) (scheduled s)
  else s.

(** [onModalKeydown(event)], by [event.key]. *)
Definition onModalKeydown (key : string) (s : State) : State :=
  if String.eqb key "Escape" then closeImageModal s
  else if String.eqb key "ArrowLeft" then previousImage s
  else if String.eqb key "ArrowRight" then nextImage s
  else s.

(** The calls the view can make. *)
Inductive Call :=
| Open (image : Image) (index : Z)
| Close
| Previous
| Next
| Key (key : string).

Definition exec (s : State) (c : Call) : State :=
  match c with
  | Open image index => openImageModal image index s
  | Close => closeImageModal s
  | Previous => previousImage s
  | Next => nextImage s
  | Key k => onModalKeydown k s
  end.

(** A call that opens the modal with an image of the gallery and that
    image's own index. *)
Definition matching (c : Call) : Prop :=
  match c with
  | Open image index => at_index index = Some image
  | _ => True
  end.

(** The fourth image of the gallery. *)
Definition izia : Image :=
  mkImage "Image/IziaFanart.png" "Izia fan art illustration" "Izia Fan Art"
    "Creative fan artwork for Iziarawr".

(** The index is one of the array; an open modal shows the image at the
    index; and the page scroll is locked exactly while the modal is
    open. *)
Definition Showing (s : State) : Prop :=
  0 <= selectedImageIndex s < gallery_length /\
  (isModalOpen s = true ->
   selectedImage s = at_index (selectedImageIndex s) /\
   selectedImage s <> None) /\
  (isModalOpen s = true <-> bodyOverflow s = Some "hidden").

End Gallery.

(** Lengths and the opacity are rationals; 0.8 is 8/10. *)

Module Hero.
Local Open Scope Q_scope.

Record State := mkState { isHeroVisible : bool; heroOpacity : Q }.

Definition initial : State := mkState true 1.

(** [updateHeroVisibility(scrollY)], with [window.innerHeight]. *)
Definition updateHeroVisibility (innerHeight scrollY : Q) (s : State)
    : State :=
  let viewportHeight := innerHeight in
  let fadeStartPoint := viewportHeight * (8 # 10) in
  let fadeEndPoint := viewportHeight in
  if Qle_bool scrollY fadeStartPoint then mkState true 1
  else if Qle_bool fadeEndPoint scrollY then mkState false 0
  else
    let fadeProgress :=
      (scrollY - fadeStartPoint) / (fadeEndPoint - fadeStartPoint) in
    mkState true (1 - fadeProgress).

End Hero.

(** ** app.component.ts: the size limits of the modal image *)

Module Constraints.
Local Open Scope string_scope.
Local Open Scope Z_scope.

(** The style properties the load handler writes, lengths in px. *)
Record Styles := mkStyles {
  image_maxWidth : Z;
  image_maxHeight : Z;
  image_width : string;
  image_height : string;
  image_objectFit : string;
  container_maxWidth : Z;
  container_maxHeight : Z
}.

(** The handler assigned to [image.onload], for a viewport of
    [innerWidth] by [innerHeight]. *)
Definition onload (viewportWidth viewportHeight : Z) : Styles :=
  let maxWidth := Z.min 800 (viewportWidth - 80) in
  let maxHeight := Z.min 500 (viewportHeight - 160) in
  mkStyles maxWidth maxHeight "auto" "auto" "contain"
           (maxWidth + 40) (maxHeight + 40).

(** enforceGlobalImageConstraints: whether the two elements are found and
    whether the image is already complete; the result is whether a load
    handler is installed and the styles written at once, if any. *)
Definition enforceGlobalImageConstraints
    (imageContainer image complete : bool) (viewportWidth viewportHeight : Z)
    : bool * option Styles :=
  if imageContainer && image then
    (true, if complete then Some (onload viewportWidth viewportHeight) else None)
  else (false, None).

End Constraints.

(* ================================================================== *)
(** * Part II: properties *)
(* ================================================================== *)

(** ** The lifecycle adapter *)

Module AdapterFacts.
Import Adapter.
Local Open Scope nat_scope.

Lemma Inv_init b : Inv (init b).
Proof.
  split; [discriminate | split; [reflexivity | intros F; now elim F]].
Qed.

Lemma Inv_step s e s' fx : Inv s -> step s e = Some (s', fx) -> Inv s'.
Proof.
  intros (Hc & Hq & Hr) H. destruct s as [pb c ip d rr q n].
  simpl in Hc, Hq, Hr.
  assert (Hrc : rr = None \/
                exists h k r, rr = Some h /\ c = Some k /\ ip = Some (Settled r)).
  { destruct rr as [h|]; [right | now left].
    destruct c as [k|]; [| exfalso; apply Hr; [discriminate | reflexivity]].
    destruct (Hc k eq_refl) as [_ [r Hip]]. eauto 6. }
  clear Hr.
  destruct e; unfold_handlers; simpl in *;
    destruct Hrc as [-> | (h & k & r0 & -> & -> & ->)]; subst q; cbn in H;
    try (rewrite Nat.eqb_refl in H; cbn in H);
    repeat split_match; try discriminate; inversion H; subst; solve_inv Hc.
Qed.

Lemma Inv_run evs : forall s s' log,
  Inv s -> run s evs = Some (s', log) -> Inv s'.
Proof.
  induction evs as [|e evs IH]; simpl; intros s s' log HI H.
  - inversion H; subst; assumption.
  - destruct (step s e) as [[s1 fx1]|] eqn:E; [|discriminate].
    destruct (run s1 evs) as [[s2 fx2]|] eqn:R; [|discriminate].
    inversion H; subst.
    apply (IH s1 s' fx2); [exact (Inv_step _ _ _ _ HI E) | exact R].
Qed.

Lemma run_app evs1 : forall evs2 s s1 log1 s2 log2,
  run s evs1 = Some (s1, log1) -> run s1 evs2 = Some (s2, log2) ->
  run s (evs1 ++ evs2) = Some (s2, log1 ++ log2).
Proof.
  induction evs1 as [|e evs1 IH]; simpl; intros evs2 s s1 log1 s2 log2 H1 H2.
  - inversion H1; subst; assumption.
  - destruct (step s e) as [[sa fa]|]; [|discriminate].
    destruct (run sa evs1) as [[sb fb]|] eqn:R; [|discriminate].
    inversion H1; subst. rewrite (IH _ _ _ _ _ _ R H2).
    now rewrite app_assoc.
Qed.

Lemma run_app_inv evs1 : forall evs2 s s2 log,
  run s (evs1 ++ evs2) = Some (s2, log) ->
  exists s1 log1 log2,
    run s evs1 = Some (s1, log1) /\ run s1 evs2 = Some (s2, log2) /\
    log = log1 ++ log2.
Proof.
  induction evs1 as [|e evs1 IH]; simpl; intros evs2 s s2 log H.
  - exists s, [], log; auto.
  - destruct (step s e) as [[sa fa]|]; [|discriminate].
    destruct (run sa (evs1 ++ evs2)) as [[sb fb]|] eqn:R; [|discriminate].
    inversion H; subst. destruct (IH _ _ _ _ R) as (s1 & l1 & l2 & A & B & C).
    exists s1, (fa ++ l1), l2. rewrite A, B, C. now rewrite app_assoc.
Qed.

Lemma count_app p l1 l2 : count p (l1 ++ l2) = count p l1 + count p l2.
Proof. unfold count. now rewrite filter_app, length_app. Qed.

(** *** Teardown *)

Lemma ngOnDestroy_clears th s : container (fst (ngOnDestroy th s)) = None.
Proof.
  destruct s as [pb c ip d rr q n]. unfold_handlers; simpl.
  repeat split_match; reflexivity.
Qed.

Lemma TornDown_after th s : Inv s -> TornDown (fst (ngOnDestroy th s)).
Proof.
  intros (_ & Hq & _). destruct s as [pb c ip d rr q n]. simpl in Hq.
  unfold TornDown. unfold_handlers; simpl.
  destruct rr; subst q; simpl; try rewrite Nat.eqb_refl; simpl;
    repeat split_match; simpl; auto.
Qed.

Lemma TornDown_noop th s : TornDown s -> ngOnDestroy th s = (s, []).
Proof.
  intros (Hd & Hc & Hr & Hq). destruct s as [pb c ip d rr q n].
  simpl in *. subst. reflexivity.
Qed.

(** Once torn down, the only thing the component still does to an engine
    instance is to destroy the one a late construction hands over. *)
Lemma TornDown_step s e s' fx :
  TornDown s -> step s e = Some (s', fx) ->
  TornDown s' /\
  (forall c op, In (FxCall c op) fx -> op = OpDestroy) /\
  (forall c th, e = EvConstructSettled (Resolved (Some c)) th ->
     In (FxCall c OpDestroy) fx).
Proof.
  intros (Hd & Hc & Hr & Hq) H. destruct s as [pb c ip d rr q n].
  simpl in *. subst. unfold TornDown.
  destruct e as [|ok|r th| |th|th]; unfold_handlers; simpl in *.
  - repeat split_match; inversion H; subst; simpl;
      (split; [auto | split; [| discriminate]]);
      intros k op Hin; simpl in Hin; intuition discriminate.
  - repeat split_match; try discriminate; inversion H; subst; simpl;
      (split; [auto | split; [| discriminate]]);
      intros k op Hin; simpl in Hin; intuition discriminate.
  - destruct ip as [[| |]|]; try discriminate.
    destruct r as [[c1|]|]; simpl in H; [destruct (th OpDestroy)| |];
      inversion H; subst; simpl;
      (split; [auto | split]);
      try (intros k op Hin; simpl in Hin;
           repeat (destruct Hin as [Hin|Hin]; try discriminate;
                   try (now inversion Hin)); contradiction);
      intros k th0 E; inversion E; subst; simpl; auto.
  - inversion H; subst; simpl.
    split; [auto | split; [intros k op [] | discriminate]].
  - inversion H; subst; simpl.
    split; [auto | split; [intros k op [] | discriminate]].
  - inversion H; subst; simpl.
    split; [auto | split; [intros k op [] | discriminate]].
Qed.

Lemma TornDown_run evs : forall s s' log,
  TornDown s -> run s evs = Some (s', log) ->
  TornDown s' /\
  (forall c op, In (FxCall c op) log -> op = OpDestroy) /\
  (forall c th, In (EvConstructSettled (Resolved (Some c)) th) evs ->
     In (FxCall c OpDestroy) log).
Proof.
  induction evs as [|e evs IH]; simpl; intros s s' log HT H.
  - inversion H; subst. split; [assumption | split; intros ? ? []].
  - destruct (step s e) as [[s1 fx1]|] eqn:E; [|discriminate].
    destruct (run s1 evs) as [[s2 fx2]|] eqn:R; [|discriminate].
    inversion H; subst.
    destruct (TornDown_step _ _ _ _ HT E) as (T1 & C1 & D1).
    destruct (IH _ _ _ T1 R) as (T2 & C2 & D2).
    split; [assumption | split].
    + intros c op Hin. apply in_app_or in Hin. destruct Hin; eauto.
    + intros c th [Heq | Hin]; apply in_or_app; eauto.
Qed.

(** C6: ngOnDestroy is idempotent.  Whatever the engine's [stop] and
    [destroy] do (return or throw), an invocation leaves [container] null;
    and once it has run, a further invocation, at once or after any other
    events, changes nothing and does nothing: no call on the engine, no
    cancelled frame, no exception. *)
Theorem teardown_idempotent b evs s log th1 evs2 s2 log2 th2 :
  run (init b) evs = Some (s, log) ->
  run (fst (ngOnDestroy th1 s)) evs2 = Some (s2, log2) ->
  (forall th s0, container (fst (ngOnDestroy th s0)) = None) /\
  ngOnDestroy th2 (fst (ngOnDestroy th1 s)) = (fst (ngOnDestroy th1 s), []) /\
  ngOnDestroy th2 s2 = (s2, []).
Proof.
  intros H1 H2.
  pose proof (Inv_run _ _ _ _ (Inv_init b) H1) as HI.
  pose proof (TornDown_after th1 s HI) as HT.
  split; [intros; apply ngOnDestroy_clears | split].
  - now apply TornDown_noop.
  - apply TornDown_noop. now destruct (TornDown_run _ _ _ _ HT H2).
Qed.

Lemma teardown_idempotent_witness :
  run (init true) (activation ++ running) = Some (playing, playing_log) /\
  run (fst (ngOnDestroy always playing)) [EvResize; EvFrame never; EvViewInit]
    = Some (fst (ngOnDestroy always playing), []) /\
  ngOnDestroy always (fst (ngOnDestroy always playing))
    = (fst (ngOnDestroy always playing), []).
Proof.
  split; [reflexivity | split; [reflexivity |]].
  exact (proj1 (proj2 (teardown_idempotent true (activation ++ running)
    playing playing_log always [EvResize; EvFrame never; EvViewInit]
    (fst (ngOnDestroy always playing)) [] always eq_refl eq_refl))).
Defined.

(** *** Resize *)

(** A resize notification schedules at most the one refresh that is not
    yet scheduled, and refreshes nothing itself. *)
Lemma resize_step s :
  Inv s ->
  exists s' fx,
    step s EvResize = Some (s', fx) /\ Inv s' /\
    count (is_call OpRefresh) fx = 0 /\
    count is_request fx + slots s' <= slots s.
Proof.
  intros HI. destruct (onWindowResized s) as [s' fx] eqn:E.
  exists s', fx. assert (Hs : step s EvResize = Some (s', fx)) by (simpl; now rewrite E).
  split; [exact Hs | split; [exact (Inv_step _ _ _ _ HI Hs) |]].
  destruct s as [pb c ip d rr q n]. unfold onWindowResized, slots in *.
  simpl in *. destruct c, rr; inversion E; subst; simpl; auto.
Qed.

Lemma resize_burst n : forall s,
  Inv s ->
  exists s' fx,
    run s (repeat EvResize n) = Some (s', fx) /\ Inv s' /\
    count (is_call OpRefresh) fx = 0 /\
    count is_request fx + slots s' <= slots s.
Proof.
  induction n as [|n IH]; intros s HI.
  - exists s, []. simpl.
    split; [reflexivity | split; [assumption | split; [reflexivity | lia]]].
  - destruct (resize_step s HI) as (s1 & fx1 & E1 & I1 & R1 & Q1).
    destruct (IH s1 I1) as (s2 & fx2 & E2 & I2 & R2 & Q2).
    exists s2, (fx1 ++ fx2). cbn [repeat run]. rewrite E1, E2.
    rewrite !count_app.
    split; [reflexivity | split; [assumption | split; lia]].
Qed.

(** In a reachable state a frame runs at most one callback. *)
Lemma frame_refreshes th s :
  Inv s ->
  count (is_call OpRefresh) (snd (frame th s)) <= 1 /\
  count is_request (snd (frame th s)) = 0.
Proof.
  intros (_ & Hq & _). destruct s as [pb c ip d rr q n]. simpl in Hq.
  unfold_handlers; simpl. destruct rr; subst q; simpl; auto.
  destruct c; simpl; auto.
Qed.

Lemma slots_le_1 s : slots s <= 1.
Proof. unfold slots. destruct (resizeRaf s); auto. Qed.

(** C5: onWindowResized coalesces.  From any reachable state, however
    many resize notifications arrive before the next frame, they and the
    frame together run to completion with at most one [requestAnimationFrame]
    and at most one [refresh()]; a notification while a refresh is
    scheduled, or while there is no container, changes nothing and does
    nothing. *)
Theorem resize_coalesced b evs s log n th :
  run (init b) evs = Some (s, log) ->
  (exists s' fx,
     run s (repeat EvResize n ++ [EvFrame th]) = Some (s', fx) /\
     count (is_call OpRefresh) fx <= 1 /\ count is_request fx <= 1) /\
  (resizeRaf s <> None -> onWindowResized s = (s, [])) /\
  (container s = None -> onWindowResized s = (s, [])).
Proof.
  intros H. pose proof (Inv_run _ _ _ _ (Inv_init b) H) as HI.
  split; [| split].
  - destruct (resize_burst n s HI) as (s1 & fx1 & E1 & I1 & R1 & Q1).
    destruct (frame_refreshes th s1 I1) as [F1 F2].
    destruct (frame th s1) as [s2 fx2] eqn:EF. simpl in F1, F2.
    exists s2, (fx1 ++ (fx2 ++ [])). split.
    + apply (run_app _ _ _ _ _ _ _ E1). simpl. now rewrite EF.
    + rewrite !count_app. pose proof (slots_le_1 s).
      unfold count at 3 6. simpl. lia.
  - intros Hr. unfold onWindowResized.
    destruct (container s); [|reflexivity].
    destruct (resizeRaf s); [reflexivity | contradiction].
  - intros Hc. unfold onWindowResized. now rewrite Hc.
Qed.

Lemma resize_coalesced_witness :
  run (init true) (activation ++ running) = Some (playing, playing_log) /\
  (exists s' fx,
     run playing (repeat EvResize 20 ++ [EvFrame never]) = Some (s', fx) /\
     count (is_call OpRefresh) fx <= 1 /\ count is_request fx <= 1) /\
  (resizeRaf playing <> None -> onWindowResized playing = (playing, [])) /\
  (container playing = None -> onWindowResized playing = (playing, [])).
Proof.
  split; [reflexivity |].
  exact (resize_coalesced true (activation ++ running) playing playing_log
           20 never eq_refl).
Defined.

(** *** Initialization *)

Lemma next_loader_not_first l : next_loader l <> Some LoadBasic.
Proof. destruct l; discriminate. Qed.

(** Bookkeeping of one event: the initialization starts exactly when
    [initPromise] becomes set, the construction is requested only out of
    the set-up phase, and it settles only once. *)
Lemma budget_step s e s' fx :
  step s e = Some (s', fx) ->
  platformBrowser s' = platformBrowser s /\
  count is_begin fx + started s = started s' /\
  count is_construct fx + construct_budget s' <= construct_budget s /\
  (if is_construct_settled e then 1 else 0) + settle_budget s'
    <= settle_budget s /\
  (initPromise s' <> None <->
     initPromise s <> None \/ (platformBrowser s = true /\ e = EvViewInit)).
Proof.
  intros H. destruct s as [pb c ip d rr q n].
  assert (Hsome : forall p : Progress, Some p <> None) by discriminate.
  assert (Hnone : ~ (@None Progress <> None)) by (intros F; now apply F).
  destruct e as [|ok|r th| |th|th];
    unfold started, construct_budget, settle_budget;
    unfold_handlers; simpl in *.
  - destruct pb, ip as [[| |]|]; simpl in H; inversion H; subst; simpl;
      repeat split; auto; try tauto; try discriminate;
      intros [F|[F _]]; auto; discriminate.
  - destruct ip as [[l| |]|]; try discriminate. destruct ok; simpl in H.
    + pose proof (next_loader_not_first l) as Hl.
      destruct (next_loader l) as [l'|]; [| destruct d];
        inversion H; subst; simpl; repeat split; auto; try tauto.
      destruct l'; auto. now elim Hl.
    + inversion H; subst; simpl; repeat split; auto; tauto.
  - destruct ip as [[l| |]|]; try discriminate.
    destruct r as [[k|]|], d; simpl in H; try destruct (th _);
      inversion H; subst; simpl; repeat split; auto; tauto.
  - destruct c, rr; inversion H; subst; simpl;
      repeat split; auto; try tauto; try lia;
      try (destruct ip as [[| |]|]; simpl; auto; fail);
      intros [F|[_ F]]; auto; discriminate.
  - assert (Hcb : forall qq ss ss' ff, run_callbacks th qq ss = (ss', ff) ->
        platformBrowser ss' = platformBrowser ss /\
        initPromise ss' = initPromise ss /\
        count is_begin ff = 0 /\ count is_construct ff = 0).
    { induction qq as [|h qq IHq]; simpl; intros ss ss' ff E.
      - inversion E; subst; auto.
      - destruct (run_callbacks th qq (set_resizeRaf None ss))
          as [s2 f2] eqn:E2.
        destruct (IHq _ _ _ E2) as (A & B & C & D).
        unfold raf_callback, call in E. simpl in E.
        destruct (container ss); inversion E; subst; simpl;
          rewrite ?count_app, ?C, ?D; repeat split; auto. }
    destruct (run_callbacks th q _) as [s2 f2] eqn:E2.
    destruct (Hcb _ _ _ _ E2) as (A & B & C & D). simpl in A, B.
    inversion H; subst s' fx. rewrite A, B, C, D. simpl.
    repeat split; auto; try tauto; try lia;
      try (destruct ip as [[| |]|]; simpl; auto; fail);
      intros [F|[_ F]]; auto; discriminate.
  - destruct rr, c; simpl in H; try destruct (th _);
      inversion H; subst; simpl;
      repeat split; auto; try tauto; try lia;
      try (destruct ip as [[| |]|]; simpl; auto; fail);
      intros [F|[_ F]]; auto; discriminate.
Qed.

Lemma budget_run evs : forall s s' log,
  run s evs = Some (s', log) ->
  platformBrowser s' = platformBrowser s /\
  count is_begin log + started s = started s' /\
  count is_construct log + construct_budget s' <= construct_budget s /\
  List.length (filter is_construct_settled evs) + settle_budget s'
    <= settle_budget s /\
  (initPromise s' <> None <->
     initPromise s <> None \/ (platformBrowser s = true /\ In EvViewInit evs)).
Proof.
  induction evs as [|e evs IH]; simpl; intros s s' log H.
  - inversion H; subst. repeat split; auto; tauto.
  - destruct (step s e) as [[s1 fx1]|] eqn:E; [|discriminate].
    destruct (run s1 evs) as [[s2 fx2]|] eqn:R; [|discriminate].
    inversion H; subst.
    destruct (budget_step _ _ _ _ E) as (A1 & B1 & C1 & D1 & E1).
    destruct (IH _ _ _ R) as (A2 & B2 & C2 & D2 & E2).
    rewrite !count_app. split; [congruence | split; [lia | split; [lia |]]].
    split.
    + destruct (is_construct_settled e); simpl in *; lia.
    + rewrite E2, E1, A1. intuition (subst; auto).
Qed.

(** C2: one initialization per adapter.  Along every run of a fresh
    component the initialization is started at most once, and exactly once
    when ngAfterViewInit is called in a browser; [tsParticles.load] is
    requested at most once and settles at most once, so at most one
    container is ever handed to the component; and a call of
    ngAfterViewInit while [initPromise] is set, or outside a browser,
    changes nothing and does nothing. *)
Theorem single_initialization b evs s log :
  run (init b) evs = Some (s, log) ->
  count is_begin log <= 1 /\
  (count is_begin log = 1 <-> b = true /\ In EvViewInit evs) /\
  count is_construct log <= 1 /\
  List.length (filter is_construct_settled evs) <= 1 /\
  (initPromise s <> None -> ngAfterViewInit s = (s, [])) /\
  (b = false -> ngAfterViewInit s = (s, [])).
Proof.
  intros H. destruct (budget_run _ _ _ _ H) as (A & B & C & D & E).
  simpl in A. unfold started, construct_budget, settle_budget in *.
  simpl in B, C, D, E.
  split; [destruct (initPromise s); lia | split; [| split; [lia | split]]].
  - rewrite Nat.add_0_r in B. rewrite B. split.
    + intros H1. destruct (initPromise s) eqn:Ei; [|discriminate].
      destruct (proj1 E) as [F|F]; [discriminate | now elim F | exact F].
    + intros H1. destruct (initPromise s) eqn:Ei; [reflexivity|].
      exfalso. apply (proj2 E); auto.
  - destruct (initPromise s) as [[| |]|]; lia.
  - split.
    + intros Hp. unfold ngAfterViewInit.
      destruct (platformBrowser s); simpl; [|reflexivity].
      destruct (initPromise s); [reflexivity | now elim Hp].
    + intros Hb. unfold ngAfterViewInit. rewrite A, Hb. reflexivity.
Qed.

Lemma single_initialization_witness :
  run (init true) (activation ++ running ++ [EvViewInit])
    = Some (playing, playing_log) /\
  count is_begin playing_log <= 1 /\
  (count is_begin playing_log = 1 <->
     true = true /\ In EvViewInit (activation ++ running ++ [EvViewInit])) /\
  count is_construct playing_log <= 1 /\
  List.length (filter is_construct_settled
                 (activation ++ running ++ [EvViewInit])) <= 1 /\
  (initPromise playing <> None -> ngAfterViewInit playing = (playing, [])) /\
  (true = false -> ngAfterViewInit playing = (playing, [])).
Proof.
  split; [reflexivity |].
  exact (single_initialization true (activation ++ running ++ [EvViewInit])
           playing playing_log eq_refl).
Defined.

(** *** Teardown racing the construction, and failed construction *)

Lemma Quiet_init b : Quiet (init b).
Proof. repeat split. Qed.

(** While the initialization has not settled, the component is quiet. *)
Lemma Inv_Quiet s :
  Inv s -> (forall r, initPromise s <> Some (Settled r)) -> Quiet s.
Proof.
  intros (Hc & Hq & Hr) Hn. unfold Quiet.
  assert (Hcn : container s = None).
  { destruct (container s) as [k|] eqn:E; [|reflexivity].
    destruct (Hc k eq_refl) as [_ [r Hs]]. now elim (Hn r). }
  assert (Hrn : resizeRaf s = None).
  { destruct (resizeRaf s) as [h|] eqn:E; [|reflexivity].
    exfalso. apply Hr; [discriminate | exact Hcn]. }
  rewrite Hrn in Hq. auto.
Qed.

(** A quiet component stays quiet and calls no engine method, as long as
    no container is handed over. *)
Lemma Quiet_step s e s' fx :
  Quiet s -> hands_over e = false -> step s e = Some (s', fx) ->
  Quiet s' /\ forall c op, ~ In (FxCall c op) fx.
Proof.
  intros (Hc & Hr & Hq) Hh H. destruct s as [pb c ip d rr q n].
  simpl in *. subst. unfold Quiet.
  destruct e as [|ok|r th| |th|th]; unfold_handlers; cbn in H.
  - repeat split_match; inversion H; subst; simpl;
      (split; [auto |]); intros k op Hin; simpl in Hin;
      intuition discriminate.
  - repeat split_match; try discriminate; inversion H; subst; simpl;
      (split; [auto |]); intros k op Hin; simpl in Hin;
      intuition discriminate.
  - destruct ip as [[| |]|]; try discriminate.
    destruct r as [[k|]|]; [discriminate | |]; destruct d; cbn in H;
      inversion H; subst; simpl;
      (split; [auto |]); intros k op Hin; simpl in Hin;
      intuition discriminate.
  - inversion H; subst; simpl. split; [auto | intros k op []].
  - inversion H; subst; simpl. split; [auto | intros k op []].
  - inversion H; subst; simpl. split; [auto | intros k op []].
Qed.

Lemma Quiet_run evs : forall s s' log,
  Quiet s -> forallb (fun e => negb (is_construct_settled e)) evs = true ->
  run s evs = Some (s', log) ->
  Quiet s' /\ forall c op, ~ In (FxCall c op) log.
Proof.
  induction evs as [|e evs IH]; simpl; intros s s' log HQ Hf H.
  - inversion H; subst. split; [assumption | intros ? ? []].
  - apply andb_prop in Hf. destruct Hf as [He Hf].
    destruct (step s e) as [[s1 fx1]|] eqn:E; [|discriminate].
    destruct (run s1 evs) as [[s2 fx2]|] eqn:R; [|discriminate].
    inversion H; subst.
    assert (Hh : hands_over e = false) by (destruct e; try reflexivity; discriminate).
    destruct (Quiet_step _ _ _ _ HQ Hh E) as [Q1 N1].
    destruct (IH _ _ _ Q1 Hf R) as [Q2 N2].
    split; [assumption |]. intros c op Hin. apply in_app_or in Hin.
    destruct Hin; [eapply N1 | eapply N2]; eauto.
Qed.

(** Once the initialization has settled without a container, the component
    stays as it is: no container, no new request to the engine. *)
Lemma Failed_step s e s' fx :
  Quiet s -> initPromise s = Some (Settled (Resolved None)) ->
  step s e = Some (s', fx) ->
  (Quiet s' /\ initPromise s' = Some (Settled (Resolved None))) /\
  count is_begin fx = 0 /\ count is_construct fx = 0.
Proof.
  intros (Hc & Hr & Hq) Hi H. destruct s as [pb c ip d rr q n].
  simpl in *. subst. unfold Quiet.
  destruct e as [|ok|r th| |th|th]; unfold_handlers; cbn in H;
    try discriminate;
    try (destruct pb; cbn in H); inversion H; subst; simpl; auto.
Qed.

Lemma Failed_run evs : forall s s' log,
  Quiet s -> initPromise s = Some (Settled (Resolved None)) ->
  run s evs = Some (s', log) ->
  (Quiet s' /\ initPromise s' = Some (Settled (Resolved None))) /\
  count is_begin log = 0 /\ count is_construct log = 0.
Proof.
  induction evs as [|e evs IH]; simpl; intros s s' log HQ Hi H.
  - inversion H; subst. auto.
  - destruct (step s e) as [[s1 fx1]|] eqn:E; [|discriminate].
    destruct (run s1 evs) as [[s2 fx2]|] eqn:R; [|discriminate].
    inversion H; subst.
    destruct (Failed_step _ _ _ _ HQ Hi E) as ([Q1 I1] & B1 & C1).
    destruct (IH _ _ _ Q1 I1 R) as (QI & B2 & C2).
    rewrite !count_app, B1, B2, C1, C2. auto.
Qed.

Lemma Quiet_destroy th s :
  Quiet s -> snd (ngOnDestroy th s) = [] /\ TornDown (fst (ngOnDestroy th s)).
Proof.
  intros (Hc & Hr & Hq). destruct s as [pb c ip d rr q n]. simpl in *.
  subst. unfold TornDown. cbn. auto.
Qed.

(** C1, as the code has it: when ngOnDestroy is invoked before
    [tsParticles.load] has settled, then whatever happens afterwards the
    stored [container] is null at the end, a container the construction
    hands over has [destroy()] called on it, and [destroy()] is the only
    engine method the component ever calls: the instance is released
    without having been played, and [stop()] is not called on it. *)
Theorem teardown_before_construction b pre th post s log :
  forallb (fun e => negb (is_construct_settled e)) pre = true ->
  run (init b) (pre ++ EvDestroy th :: post) = Some (s, log) ->
  container s = None /\
  (forall c th', In (EvConstructSettled (Resolved (Some c)) th') post ->
     In (FxCall c OpDestroy) log) /\
  (forall c op, In (FxCall c op) log -> op = OpDestroy).
Proof.
  intros Hpre H.
  destruct (run_app_inv _ _ _ _ _ H) as (s1 & log1 & log2 & H1 & H2 & ->).
  destruct (Quiet_run _ _ _ _ (Quiet_init b) Hpre H1) as [Q1 N1].
  destruct (Quiet_destroy th s1 Q1) as [Fx T].
  cbn [run step] in H2. destruct (ngOnDestroy th s1) as [sd fxd].
  simpl in Fx, T. subst fxd.
  destruct (run sd post) as [[s2 fx2]|] eqn:R; [|discriminate].
  inversion H2; subst. simpl.
  destruct (TornDown_run _ _ _ _ T R) as ((_ & Hc & _) & Only & Destroyed).
  split; [exact Hc | split].
  - intros c th' Hin. apply in_or_app. right. eauto.
  - intros c op Hin. apply in_app_or in Hin. destruct Hin as [Hin|Hin].
    + now elim (N1 c op).
    + eauto.
Qed.

Lemma teardown_before_construction_witness :
  forallb (fun e => negb (is_construct_settled e)) activation = true /\
  run (init true) (activation ++ race)
    = Some (mkState true None (Some (Settled (Resolved None))) true None [] 1,
            race_log) /\
  (forall c th', In (EvConstructSettled (Resolved (Some c)) th')
                    [EvConstructSettled (Resolved (Some 7)) never] ->
     In (FxCall c OpDestroy) race_log) /\
  (forall c op, In (FxCall c op) race_log -> op = OpDestroy).
Proof.
  split; [reflexivity | split; [reflexivity |]].
  exact (proj2 (teardown_before_construction true activation never
    [EvConstructSettled (Resolved (Some 7)) never]
    (mkState true None (Some (Settled (Resolved None))) true None [] 1)
    race_log eq_refl eq_refl)).
Defined.

(** C1 as the spec words it does not hold: in the race the instance is
    destroyed, but [stop()] is never called on it. *)
Lemma race_instance_not_stopped :
  option_map snd (run (init true) (activation ++ race)) = Some race_log /\
  ~ stopped_and_released 7 race_log.
Proof.
  split; [reflexivity |]. intros [Hstop _]. simpl in Hstop.
  repeat (destruct Hstop as [Hstop|Hstop]; [discriminate |]). exact Hstop.
Qed.

(** C8, as the code has it: when [tsParticles.load] rejects, the catch
    block logs the failure; when it resolves to no container, nothing is
    logged.  Either way the step completes, [initPromise] is resolved (not
    rejected) with null, [container] is null and stays null, and nothing is
    retried: no initialization and no construction is started again. *)
Theorem construction_failure b evs s log r th :
  run (init b) evs = Some (s, log) ->
  initPromise s = Some AwaitConstruct ->
  r = Rejected \/ r = Resolved None ->
  exists s',
    step s (EvConstructSettled r th)
      = Some (s', match r with
                  | Rejected => [FxConsoleError]
                  | Resolved _ => []
                  end) /\
    container s' = None /\
    initPromise s' = Some (Settled (Resolved None)) /\
    forall evs' s'' log',
      run s' evs' = Some (s'', log') ->
      container s'' = None /\
      initPromise s'' = Some (Settled (Resolved None)) /\
      count is_begin log' = 0 /\ count is_construct log' = 0.
Proof.
  intros H Hi Hr.
  pose proof (Inv_run _ _ _ _ (Inv_init b) H) as HI.
  assert (HQ : Quiet s).
  { apply Inv_Quiet; [exact HI |]. intros r0. rewrite Hi. discriminate. }
  destruct HQ as (Hc & Hrr & Hq). destruct s as [pb c ip d rr q n].
  simpl in *. subst.
  assert (HF : forall s', Quiet s' ->
            initPromise s' = Some (Settled (Resolved None)) ->
            container s' = None /\
            initPromise s' = Some (Settled (Resolved None)) /\
            forall evs' s'' log',
              run s' evs' = Some (s'', log') ->
              container s'' = None /\
              initPromise s'' = Some (Settled (Resolved None)) /\
              count is_begin log' = 0 /\ count is_construct log' = 0).
  { intros s' Q' I'. split; [apply Q' | split; [exact I' |]].
    intros evs' s'' log' R.
    destruct (Failed_run _ _ _ _ Q' I' R) as ([Q2 I2] & B & C).
    split; [apply Q2 | auto]. }
  destruct Hr as [-> | ->]; unfold_handlers; cbn.
  - eexists. split; [reflexivity |]. apply HF; repeat split.
  - destruct d; cbn; eexists; (split; [reflexivity |]);
      apply HF; repeat split.
Qed.

Lemma construction_failure_witness :
  run (init true) activation
    = Some (mkState true None (Some AwaitConstruct) false None [] 1,
            no_container_log) /\
  exists s',
    step (mkState true None (Some AwaitConstruct) false None [] 1)
         (EvConstructSettled Rejected never) = Some (s', [FxConsoleError]) /\
    container s' = None /\
    initPromise s' = Some (Settled (Resolved None)) /\
    forall evs' s'' log',
      run s' evs' = Some (s'', log') ->
      container s'' = None /\
      initPromise s'' = Some (Settled (Resolved None)) /\
      count is_begin log' = 0 /\ count is_construct log' = 0.
Proof.
  split; [reflexivity |].
  exact (construction_failure true activation
    (mkState true None (Some AwaitConstruct) false None [] 1)
    no_container_log Rejected never eq_refl eq_refl (or_introl eq_refl)).
Defined.

(** C8 as the spec words it does not hold: a construction that resolves
    to no container is not logged. *)
Lemma null_construction_not_logged :
  option_map snd (run (init true) (activation ++ no_container))
    = Some no_container_log /\
  ~ logged no_container_log.
Proof.
  split; [reflexivity |]. intros Hl. unfold logged in Hl. simpl in Hl.
  repeat (destruct Hl as [Hl|Hl]; [discriminate |]). exact Hl.
Qed.

End AdapterFacts.

(** ** JavaScript numbers *)

Module Float64Facts.
Import PrimFloat FloatOps SpecFloat FloatAxioms FloatLemmas.
Import Float64.
Local Open Scope float_scope.

Lemma ltb_irrefl x : (x <? x) = false.
Proof. to_spec. sf_cases; cmp_cases. Qed.

Lemma ltb_trans x y z : (x <? y) = true -> (y <? z) = true -> (x <? z) = true.
Proof. intros H1 H2. to_spec. sf_cases; cmp_cases. Qed.

Lemma leb_ltb_trans x y z :
  (x <=? y) = true -> (y <? z) = true -> (x <? z) = true.
Proof. intros H1 H2. to_spec. sf_cases; cmp_cases. Qed.

Lemma ltb_leb_trans x y z :
  (x <? y) = true -> (y <=? z) = true -> (x <? z) = true.
Proof. intros H1 H2. to_spec. sf_cases; cmp_cases. Qed.

(** A double that compares at all compares as equal to itself. *)
Lemma leb_refl x y : (x <? y) = true -> (y <=? y) = true.
Proof. intros H1. to_spec. sf_cases; cmp_cases. Qed.

Lemma ltb_leb x y : (x <? y) = true -> (x <=? y) = true.
Proof. intros H1. to_spec. sf_cases; cmp_cases. Qed.

Lemma leb_not_ltb x y : (x <=? y) = true -> (y <? x) = false.
Proof. intros H1. to_spec. sf_cases; cmp_cases. Qed.

(** The remainder at work: the sign is the dividend's, also on a zero. *)
Example js_rem_examples :
  js_rem 5.5 2 = 1.5 /\ js_rem (-7) 2 = -1 /\ js_rem 7 (-2) = 1 /\
  js_rem (-4) 2 = neg_zero /\ js_rem 3 0 = nan /\ js_rem infinity 2 = nan /\
  js_rem 3 infinity = 3 /\ js_rem 0x1p+60 3 = 1 /\
  js_rem 0x1.fffffffffffffp-1 2 = 0x1.fffffffffffffp-1.
Proof. repeat split; vm_compute; reflexivity. Qed.

(** The remainder of a dividend that is not negative and below the
    divisor is the dividend. *)
Lemma js_rem_small x y :
  (0 <=? x) = true -> (x <? y) = true -> js_rem x y = x.
Proof.
  intros H0 H1. unfold js_rem, is_nan, is_zero, is_infinity.
  change zero with 0. to_spec. sf_cases; cmp_cases.
Qed.

Lemma binary_round_aux_unsigned m e l :
  unsigned (binary_round_aux prec emax false m e l).
Proof.
  unfold binary_round_aux.
  destruct (shr_fexp prec emax m e l) as [mrs e1].
  destruct (shr_fexp prec emax _ e1 loc_Exact) as [mrs2 e2].
  destruct (shr_m mrs2); cbn; auto.
  destruct (Z.leb _ _); cbn; auto.
Qed.

Lemma binary_round_unsigned m e : unsigned (binary_round prec emax false m e).
Proof.
  unfold binary_round. destruct (shl_align _ _ _) as [mz ez].
  apply binary_round_aux_unsigned.
Qed.

Lemma SF2Prim_unsigned r e :
  unsigned (Prim2SF (SF2Prim (S754_finite false r e))).
Proof.
  cbv beta iota delta [SF2Prim]. cbv zeta.
  rewrite Z_ldexp_spec, of_uint63_spec.
  pose proof (Uint63.to_Z_bounded (Uint63Axioms.of_Z (Z.pos r))) as [Hb _].
  destruct (Uint63Axioms.to_Z _) as [|u|u]; [exact I | | lia].
  unfold binary_normalize.
  pose proof (binary_round_unsigned u 0) as Hu.
  destruct (binary_round prec emax false u 0) as [s|s| |s m' e']; cbn in *; auto.
  subst s. apply binary_round_unsigned.
Qed.

(** The remainder of a dividend that is not negative is not negative
    either, or NaN. *)
Lemma js_rem_unsigned x y :
  (0 <=? x) = true -> unsigned (Prim2SF (js_rem x y)).
Proof.
  intros H0. unfold js_rem, is_nan, is_zero, is_infinity.
  change zero with 0.
  repeat match goal with
  | |- context [if ?c then _ else _] => destruct c
  end; try exact I; try (to_spec; sf_cases; exact I).
  unfold rem_exact. to_spec. unfold SFleb in H0.
  destruct (Prim2SF x) as [s|s| |s m e]; try exact I.
  destruct s; [discriminate |].
  destruct (Prim2SF y) as [s'|s'| |s' m' e']; try exact I.
  destruct (_ mod _)%Z; try exact I.
  apply SF2Prim_unsigned.
Qed.

(** What is NaN, zero or above zero is not below a bound that is at
    most zero. *)
Lemma unsigned_not_below r h :
  unsigned (Prim2SF r) -> (h <=? 0) = true -> (r <? h) = false.
Proof.
  intros Hr Hh. to_spec. unfold unsigned in Hr. sf_cases.
Qed.

(** *** Doubling *)

(** Fifty-two more binary digits after a multiplication by 2^52. *)
Lemma digits_shift52 m :
  Z.pos (digits2_pos (4503599627370496 * m)) = (Z.pos (digits2_pos m) + 52)%Z.
Proof.
  change (4503599627370496 * m)%positive
    with (m~0~0~0~0~0~0~0~0~0~0~0~0~0~0~0~0~0~0~0~0~0~0~0~0~0~0~0~0~0~0~0~0~0~0~0~0~0~0~0~0~0~0~0~0~0~0~0~0~0~0~0~0)%positive.
  cbn [digits2_pos]. lia.
Qed.

(** Doubling a finite double other than zero: the significand doubles
    (subnormal), the exponent goes up by one (normal), or the product is
    an infinity; the sign stays. *)
Lemma SFmul_two s m e :
  valid_binary (S754_finite s m e) = true ->
  let r := SF64mul (S754_finite false 4503599627370496 (-51))
                   (S754_finite s m e) in
  r = S754_finite s m~0 e \/ r = S754_finite s m (e + 1) \/
  r = S754_infinity s.
Proof.
  intros Hv r. subst r.
  remember (SF64mul (S754_finite false 4503599627370496 (-51))
              (S754_finite s m e)) as r eqn:Er.
  unfold SF64mul, SFmul in Er. cbn [xorb] in Er.
  cbn [valid_binary] in Hv. unfold bounded, canonical_mantissa in Hv.
  apply andb_prop in Hv. destruct Hv as [Hc Hb].
  apply Z.eqb_eq in Hc. apply Z.leb_le in Hb.
  unfold binary_round_aux, shr_fexp in Er.
  unfold Zdigits2 at 1 in Er. rewrite digits_shift52 in Er.
  unfold fexp in *.
  change prec with 53%Z in *. change emax with 1024%Z in *.
  change (emin 53 1024) with (-1074)%Z in *.
  change IntDef.Z.max with Z.max in *.
  set (d := Z.pos (digits2_pos m)) in *.
  change (4503599627370496 * m)%positive
    with (m~0~0~0~0~0~0~0~0~0~0~0~0~0~0~0~0~0~0~0~0~0~0~0~0~0~0~0~0~0~0~0~0~0~0~0~0~0~0~0~0~0~0~0~0~0~0~0~0~0~0~0~0)%positive
    in Er.
  destruct (Z.max_spec (d + e - 53) (-1074)) as [[Hlt Hm]|[Hge Hm]].
  - (* subnormal *)
    replace (Z.max (d + 52 + (-51 + e) - 53) (-1074) - (-51 + e))%Z
      with 51%Z in Er by lia.
    cbn [shr shr_record_of_loc iter_pos shr_1 shr_m shr_r shr_s
         loc_of_shr_record round_nearest_even orb] in Er.
    replace (Z.max (Zdigits2 (Z.pos m~0) + (-51 + e + 51) - 53) (-1074)
             - (-51 + e + 51))%Z with 0%Z in Er
      by (cbn [Zdigits2 digits2_pos]; fold d; lia).
    cbn [shr shr_m] in Er.
    replace (-51 + e + 51)%Z with e in Er by lia.
    destruct (Z.leb_spec e (1024 - 53)); [now left | lia].
  - (* normal *)
    replace (Z.max (d + 52 + (-51 + e) - 53) (-1074) - (-51 + e))%Z
      with 52%Z in Er by lia.
    cbn [shr shr_record_of_loc iter_pos shr_1 shr_m shr_r shr_s
         loc_of_shr_record round_nearest_even orb] in Er.
    replace (Z.max (Zdigits2 (Z.pos m) + (-51 + e + 52) - 53) (-1074)
             - (-51 + e + 52))%Z with 0%Z in Er
      by (cbn [Zdigits2]; fold d; lia).
    cbn [shr shr_m] in Er.
    replace (-51 + e + 52)%Z with (e + 1)%Z in Er by lia.
    destruct (Z.leb_spec (e + 1) (1024 - 53)); [now right; left | now right; right].
Qed.

(** A finite double other than zero is smaller in size than its double. *)
Lemma abs_two_mul x :
  is_nan x = false -> is_infinity x = false -> is_zero x = false ->
  (abs x <? abs (2 * x)) = true.
Proof.
  intros Hn Hi Hz. pose proof (Prim2SF_valid x) as Hv.
  unfold is_nan, is_infinity, is_zero in *. change zero with 0 in *.
  rewrite ?eqb_spec, ?ltb_spec, ?abs_spec, ?mul_spec in *.
  change (Prim2SF 0) with (S754_zero false) in *.
  change (Prim2SF infinity) with (S754_infinity false) in *.
  change (Prim2SF 2) with (S754_finite false 4503599627370496 (-51)).
  unfold SFltb, SFeqb in *.
  destruct (Prim2SF x) as [[|]|[|]| |s m e]; try discriminate.
  clear Hn Hi Hz.
  destruct (SFmul_two s m e Hv) as [E|[E|E]]; rewrite E;
    cbn [SFabs SFcompare].
  - rewrite Z.compare_refl.
    change (PosDef.Pos.compare_cont Eq m m~0) with (Pos.compare m m~0).
    replace (m ?= m~0)%positive with Lt; [reflexivity |].
    symmetry. apply Pos.compare_lt_iff. lia.
  - replace (e ?= e + 1)%Z with Lt; [reflexivity |].
    symmetry. apply Z.compare_lt_iff. lia.
  - reflexivity.
Qed.

(** A finite double above zero is below its double. *)
Lemma two_mul_above x :
  (0 <? x) = true -> is_infinity x = false -> (x <? 2 * x) = true.
Proof.
  intros H0 Hi. pose proof (Prim2SF_valid x) as Hv.
  unfold is_infinity in *.
  rewrite ?eqb_spec, ?ltb_spec, ?abs_spec, ?mul_spec in *.
  change (Prim2SF 0) with (S754_zero false) in *.
  change (Prim2SF infinity) with (S754_infinity false) in *.
  change (Prim2SF 2) with (S754_finite false 4503599627370496 (-51)).
  unfold SFltb, SFeqb in *.
  destruct (Prim2SF x) as [[|]|[|]| |[|] m e]; try discriminate.
  clear H0 Hi.
  destruct (SFmul_two false m e Hv) as [E|[E|E]]; rewrite E;
    cbn [SFcompare].
  - rewrite Z.compare_refl.
    change (PosDef.Pos.compare_cont Eq m m~0) with (Pos.compare m m~0).
    replace (m ?= m~0)%positive with Lt; [reflexivity |].
    symmetry. apply Pos.compare_lt_iff. lia.
  - replace (e ?= e + 1)%Z with Lt; [reflexivity |].
    symmetry. apply Z.compare_lt_iff. lia.
  - reflexivity.
Qed.

(** A bound above a time that is not negative stays above it when
    doubled. *)
Lemma ltb_two_mul t h :
  (0 <=? t) = true -> (t <? h) = true -> (t <? 2 * h) = true.
Proof.
  intros H0 H1. destruct (is_infinity h) eqn:Hi.
  - replace (2 * h) with h; [exact H1 |].
    apply Prim2SF_inj. rewrite mul_spec.
    change (Prim2SF 2) with (S754_finite false 4503599627370496 (-51)).
    unfold is_infinity in Hi. to_spec. unfold SF64mul, SFmul. sf_cases.
  - assert (Hp : (0 <? h) = true) by exact (leb_ltb_trans _ _ _ H0 H1).
    exact (ltb_trans _ _ _ H1 (two_mul_above h Hp Hi)).
Qed.

(** The remainder of a number by its double is the number, or NaN. *)
Lemma js_rem_double h : js_rem h (2 * h) = nan \/ js_rem h (2 * h) = h.
Proof.
  unfold js_rem.
  destruct (is_nan h) eqn:Hn; [now left | cbn [orb]].
  destruct (is_nan (2 * h)); [now left |].
  destruct (is_infinity h) eqn:Hi; [now left |].
  destruct (is_infinity (2 * h)); [now right |].
  destruct (is_zero (2 * h)); [now left |].
  destruct (is_zero h) eqn:Hz; [now right |].
  rewrite (abs_two_mul h Hn Hi Hz). now right.
Qed.

End Float64Facts.

(** ** The particle updaters *)

Module RockerFacts.
Import PrimFloat FloatOps SpecFloat FloatAxioms.
Import Float64 Float64Facts Rocker.
Local Open Scope float_scope.

Lemma elapsed_cons t0 d ds : elapsed t0 (d :: ds) = elapsed (t0 + d / 1000) ds.
Proof. reflexivity. Qed.

(** One update of an enabled particle, spelled out. *)
Lemma smooth_update_enabled sin rnd p d :
  smooth_isEnabled p = true ->
  smooth_update sin rnd p d =
    let t := nullish (__rock p) (rnd * period_of p) + d / 1000 in
    mkParticle (shapeData p) (Some t) (__rockStep p)
      ((smooth_deg sin (a0_of p) (a1_of p) (period_of p) t * PI) / 180).
Proof. intros He. unfold smooth_update. now rewrite He. Qed.

Lemma step_update_enabled p d :
  step_isEnabled p = true ->
  step_update p d =
    let t := nullish (__rockStep p) 0 + d / 1000 in
    mkParticle (shapeData p) (__rock p) (Some t)
      ((step_deg (low_of p) (high_of p) (hold_of p) t * PI) / 180).
Proof. intros He. unfold step_update. now rewrite He. Qed.

(** Any number of frames: the private time is the one the frames
    accumulate from the starting phase, and the rotation is that of this
    time. *)
Lemma smooth_frames sin rnd deltas : forall p,
  smooth_isEnabled p = true -> deltas <> [] ->
  frames (smooth_update sin rnd) p deltas =
    let t := elapsed (nullish (__rock p) (rnd * period_of p)) deltas in
    mkParticle (shapeData p) (Some t) (__rockStep p)
      ((smooth_deg sin (a0_of p) (a1_of p) (period_of p) t * PI) / 180).
Proof.
  induction deltas as [|d ds IH]; intros p He Hne; [contradiction|].
  unfold frames in *. cbn [fold_left].
  rewrite (smooth_update_enabled sin rnd p d He). cbv zeta.
  destruct ds as [|d' ds']; [reflexivity |].
  rewrite IH; [| exact He | discriminate]. reflexivity.
Qed.

Lemma step_frames deltas : forall p,
  step_isEnabled p = true -> deltas <> [] ->
  frames step_update p deltas =
    let t := elapsed (nullish (__rockStep p) 0) deltas in
    mkParticle (shapeData p) (__rock p) (Some t)
      ((step_deg (low_of p) (high_of p) (hold_of p) t * PI) / 180).
Proof.
  induction deltas as [|d ds IH]; intros p He Hne; [contradiction|].
  unfold frames in *. cbn [fold_left].
  rewrite (step_update_enabled p d He). cbv zeta.
  destruct ds as [|d' ds']; [reflexivity |].
  rewrite IH; [| exact He | discriminate]. reflexivity.
Qed.

(** The stepped angle over the first cycle of a private time, and at a
    private time that is the hold itself. *)
Lemma step_deg_low aLow aHigh hold t :
  (0 <=? t) = true -> (t <? hold) = true ->
  step_deg aLow aHigh hold t = aLow.
Proof.
  intros H0 H1. unfold step_deg.
  rewrite js_rem_small; [now rewrite H1 | exact H0 |].
  exact (ltb_two_mul _ _ H0 H1).
Qed.

Lemma step_deg_high aLow aHigh hold t :
  (0 <? hold) = true -> (hold <=? t) = true -> (t <? 2 * hold) = true ->
  step_deg aLow aHigh hold t = aHigh.
Proof.
  intros H0 H1 H2. unfold step_deg.
  rewrite js_rem_small; [| | exact H2].
  - now rewrite (leb_not_ltb _ _ H1).
  - apply ltb_leb. exact (ltb_leb_trans _ _ _ H0 H1).
Qed.

Lemma step_deg_at_hold aLow aHigh hold :
  step_deg aLow aHigh hold hold = aHigh.
Proof.
  unfold step_deg. destruct (js_rem_double hold) as [E|E]; rewrite E.
  - replace (nan <? hold) with false; [reflexivity |].
    symmetry. to_spec. sf_cases.
  - now rewrite ltb_irrefl.
Qed.

(** C7, as the code has it, in its double arithmetic.  Smooth
    oscillation: a particle's private time starts at the random phase
    [Math.random() * period] and each frame adds its delta in seconds;
    after any frames the rotation is the radians of center + amplitude *
    Math.sin(omega * t) at that private time t, whatever time has elapsed.
    Stepped oscillation: while the private time the frames have
    accumulated is at least 0 and below the hold the rotation is the low
    bound, and when it is the hold exactly the rotation is the high
    bound. *)
Theorem oscillation_at_period_and_hold Math_sin rnd p q :
  smooth_isEnabled p = true -> step_isEnabled q = true ->
  (forall ds, ds <> [] ->
     let t := elapsed (nullish (__rock p) (rnd * period_of p)) ds in
     __rock (frames (smooth_update Math_sin rnd) p ds) = Some t /\
     rotation (frames (smooth_update Math_sin rnd) p ds)
       = radians_of_degrees
           (center_of p + amp_of p * Math_sin (omega_of p * t))) /\
  (forall ds, ds <> [] ->
     let t := elapsed (nullish (__rockStep q) 0) ds in
     __rockStep (frames step_update q ds) = Some t /\
     ((0 <=? t) = true -> (t <? hold_of q) = true ->
      rotation (frames step_update q ds) = radians_of_degrees (low_of q)) /\
     (t = hold_of q ->
      rotation (frames step_update q ds) = radians_of_degrees (high_of q))).
Proof.
  intros He Hse. split.
  - intros ds Hd. rewrite (smooth_frames Math_sin rnd ds p He Hd).
    split; reflexivity.
  - intros ds Hd. rewrite (step_frames ds q Hse Hd). cbv zeta.
    cbn [__rockStep rotation]. unfold radians_of_degrees.
    split; [reflexivity | split].
    + intros Ht0 Hlt. now rewrite step_deg_low.
    + intros Heq. rewrite Heq. now rewrite step_deg_at_hold.
Qed.

Lemma oscillation_at_period_and_hold_witness :
  __rock (frames (smooth_update sin_answers 0.25) (fresh leaf) [3000])
    = Some 3.75 /\
  rotation (frames step_update (fresh ticking) [250; 500])
    = radians_of_degrees 10 /\
  rotation (frames step_update (fresh ticking) [1000])
    = radians_of_degrees 45.
Proof.
  destruct (oscillation_at_period_and_hold sin_answers 0.25 (fresh leaf)
              (fresh ticking) eq_refl eq_refl) as [Hs Ht].
  split; [| split].
  - apply (Hs [3000]). discriminate.
  - apply (Ht [250; 500]); [discriminate | reflexivity | reflexivity].
  - apply (Ht [1000]); [discriminate | reflexivity].
Defined.

(** C7 as the spec words it does not hold.  With the component's own
    settings (0 to 25 degrees, period 3 s) and one frame of exactly one
    period (3000 ms), the smooth rotation is the upper bound, 25 degrees,
    when the random phase is a quarter period, and 12.499999999999996
    degrees when the phase is 0: the center is 12.5.  With a hold of 1 s,
    ten frames of 100 ms add up to the hold exactly, but the private time
    they accumulate is 0.9999999999999999 and the stepped rotation is
    still the low bound. *)
Lemma period_and_hold_missed :
  (rotation (frames (smooth_update sin_answers 0.25) (fresh leaf) [3000])
     = radians_of_degrees 25 /\
   rotation (frames (smooth_update sin_answers 0) (fresh leaf) [3000])
     = radians_of_degrees 0x1.8fffffffffffep+3 /\
   center_of (fresh leaf) = 12.5 /\
   radians_of_degrees 25 <> radians_of_degrees 12.5 /\
   radians_of_degrees 0x1.8fffffffffffep+3 <> radians_of_degrees 12.5) /\
  (total (repeat 100 10) = 1000 * hold_of (fresh ticking) /\
   __rockStep (frames step_update (fresh ticking) (repeat 100 10))
     = Some 0x1.fffffffffffffp-1 /\
   rotation (frames step_update (fresh ticking) (repeat 100 10))
     = radians_of_degrees (low_of (fresh ticking)) /\
   radians_of_degrees (low_of (fresh ticking))
     <> radians_of_degrees (high_of (fresh ticking))).
Proof.
  repeat split; try (vm_compute; reflexivity);
    intros E; apply (f_equal Prim2SF) in E; vm_compute in E; discriminate.
Qed.

(** C9: both updaters convert their units.  On an enabled particle one
    update adds the frame's delta, taken from milliseconds to seconds, to
    the particle's private time (created on first use), and writes to
    [rotation] the radians of an angle computed in degrees: the point of
    the sinusoid at the new private time for rockerSmooth, one of the two
    bounds for rockerStep.  The conversions are the usual ones: 1000 ms
    are 1 s, 180 degrees are [Math.PI]. *)
Theorem updaters_convert_units Math_sin rnd p q delta :
  smooth_isEnabled p = true -> step_isEnabled q = true ->
  (let t := nullish (__rock p) (rnd * period_of p) + seconds_of_millis delta in
   __rock (smooth_update Math_sin rnd p delta) = Some t /\
   rotation (smooth_update Math_sin rnd p delta)
     = radians_of_degrees
         (smooth_deg Math_sin (a0_of p) (a1_of p) (period_of p) t)) /\
  (let t := nullish (__rockStep q) 0 + seconds_of_millis delta in
   __rockStep (step_update q delta) = Some t /\
   exists deg,
     deg = step_deg (low_of q) (high_of q) (hold_of q) t /\
     (deg = low_of q \/ deg = high_of q) /\
     rotation (step_update q delta) = radians_of_degrees deg) /\
  (seconds_of_millis 1000 = 1 /\ seconds_of_millis 500 = 0.5 /\
   radians_of_degrees 180 = PI /\ radians_of_degrees 360 = 2 * PI /\
   radians_of_degrees 0 = 0).
Proof.
  intros Hp Hq. split; [| split].
  - rewrite (smooth_update_enabled Math_sin rnd p delta Hp).
    split; reflexivity.
  - rewrite (step_update_enabled q delta Hq). cbv zeta.
    cbn [__rockStep rotation]. split; [reflexivity |].
    eexists. split; [reflexivity | split; [| reflexivity]].
    unfold step_deg. destruct (_ <? _); auto.
  - repeat split; vm_compute; reflexivity.
Qed.

Lemma updaters_convert_units_witness :
  __rock (smooth_update sin_answers 0.5 (fresh leaf) 250) = Some 1.75 /\
  __rockStep (step_update (fresh stepping) 250) = Some 0.25 /\
  rotation (step_update (fresh stepping) 250) = radians_of_degrees 0.
Proof.
  destruct (updaters_convert_units sin_answers 0.5 (fresh leaf)
              (fresh stepping) 250 eq_refl eq_refl)
    as ((Hs & _) & (Ht & deg & Hd & _ & Hr) & _).
  split; [exact Hs | split; [exact Ht |]].
  rewrite Hr, Hd. reflexivity.
Defined.

End RockerFacts.

(** ** The navigation bar *)

Module NavigationFacts.
Import Navigation.
Local Open Scope string_scope.

(** The flags after [setActiveSection], item by item. *)
Lemma setActiveSection_items sectionId s j it :
  nth_error (navigationItems (setActiveSection sectionId s)) j = Some it ->
  exists it0,
    nth_error (navigationItems s) j = Some it0 /\
    scrollTarget it = scrollTarget it0 /\
    isActive it = String.eqb (scrollTarget it0) sectionId.
Proof.
  unfold setActiveSection. cbn [navigationItems]. rewrite nth_error_map.
  destruct (nth_error (navigationItems s) j) as [it0|]; [|discriminate].
  cbn. intros E. inversion E; subst. exists it0. cbn. auto.
Qed.

(** The four links have four different targets. *)
Lemma same_links_targets s i j a b :
  same_links s ->
  nth_error (navigationItems s) i = Some a ->
  nth_error (navigationItems s) j = Some b ->
  String.eqb (scrollTarget b) (scrollTarget a) = Nat.eqb j i.
Proof.
  unfold same_links. intros Hs Ha Hb.
  assert (Ha' : nth_error (map scrollTarget (navigationItems s)) i
                = Some (scrollTarget a)) by (rewrite nth_error_map, Ha; reflexivity).
  assert (Hb' : nth_error (map scrollTarget (navigationItems s)) j
                = Some (scrollTarget b)) by (rewrite nth_error_map, Hb; reflexivity).
  rewrite Hs in Ha', Hb'. cbn in Ha', Hb'.
  destruct i as [|[|[|[|i]]]]; cbn in Ha';
    try (destruct i; discriminate); inversion Ha' as [Ea];
    destruct j as [|[|[|[|j]]]]; cbn in Hb';
    try (destruct j; discriminate); inversion Hb' as [Eb];
    reflexivity.
Qed.

(** C3, as the code has it: a click on the [i]-th link sets
    [currentActiveSection] to that link's target, closes the mobile menu,
    and leaves exactly that link flagged active, whether or not the target
    resolves to an element; when the target is not "top" and resolves to
    nothing, the warning is logged as well. *)
Theorem click_activates w s i item event :
  same_links s ->
  nth_error (navigationItems s) i = Some item ->
  currentActiveSection (fst (onNavigationClick w item event s))
    = scrollTarget item /\
  isMobileMenuOpen (fst (onNavigationClick w item event s)) = false /\
  (forall j it,
     nth_error (navigationItems (fst (onNavigationClick w item event s))) j
       = Some it ->
     isActive it = Nat.eqb j i) /\
  (scrollTarget item <> "top" -> resolve w (scrollTarget item) = None ->
   In (FxWarn (scrollTarget item)) (snd (onNavigationClick w item event s))).
Proof.
  intros Hs Hi. unfold onNavigationClick. cbn [fst snd].
  split; [reflexivity | split; [reflexivity | split]].
  - intros j it Hj.
    destruct (setActiveSection_items _ _ _ _ Hj) as (it0 & H0 & _ & ->).
    cbn [navigationItems] in H0. exact (same_links_targets s i j item it0 Hs Hi H0).
  - intros Htop Hres.
    assert (Hne : String.eqb (scrollTarget item) "" = false).
    { assert (Hin : nth_error (map scrollTarget (navigationItems s)) i
                    = Some (scrollTarget item))
        by (rewrite nth_error_map, Hi; reflexivity).
      rewrite Hs in Hin. cbn in Hin.
      destruct i as [|[|[|[|i]]]]; cbn in Hin;
        try (destruct i; discriminate); inversion Hin; reflexivity. }
    apply String.eqb_neq in Htop. rewrite Htop, Hne. cbn [negb].
    unfold scrollToSection. rewrite Hres.
    apply in_or_app. right. apply in_or_app. right. now left.
Qed.

Lemma click_activates_witness :
  currentActiveSection (fst (onNavigationClick empty_page gallery true initial))
    = "gallery-section" /\
  In (FxWarn "gallery-section")
     (snd (onNavigationClick empty_page gallery true initial)) /\
  map isActive
      (navigationItems (fst (onNavigationClick empty_page gallery true initial)))
    = [false; true; false; false].
Proof.
  destruct (click_activates empty_page initial 1 gallery true eq_refl eq_refl)
    as (Hc & _ & _ & Hw).
  split; [exact Hc | split; [| reflexivity]].
  apply Hw; [discriminate | reflexivity].
Defined.

(** C3 as the spec words it does not hold: on a page where the target of
    the Gallery link resolves to nothing, the click logs the warning and
    still moves [currentActiveSection] from "top" to "gallery-section". *)
Lemma unresolved_click_changes_section :
  resolve empty_page (scrollTarget gallery) = None /\
  snd (onNavigationClick empty_page gallery true initial)
    = [FxLog "#gallery"; FxPreventDefault; FxWarn "gallery-section"] /\
  currentActiveSection (fst (onNavigationClick empty_page gallery true initial))
    <> currentActiveSection initial.
Proof. split; [reflexivity | split; [reflexivity | discriminate]]. Qed.

(** *** Scroll tracking *)








End NavigationFacts.

(** ** The services carousel *)

Module ServicesFacts.
Import Services.
Local Open Scope Z_scope.

Lemma services_length_3 : services_length = 3.
Proof. reflexivity. Qed.

(** The timer bookkeeping leaves the index alone. *)
Lemma startServicesAutoPlay_index s :
  currentServiceIndex (startServicesAutoPlay s) = currentServiceIndex s.
Proof. unfold startServicesAutoPlay. now destruct (isServicesAutoPlay s). Qed.

Lemma resetServicesAutoPlay_index s :
  currentServiceIndex (resetServicesAutoPlay s) = currentServiceIndex s.
Proof.
  unfold resetServicesAutoPlay. rewrite startServicesAutoPlay_index.
  now destruct (servicesInterval s).
Qed.

Lemma toggleServicesAutoPlay_index s :
  currentServiceIndex (toggleServicesAutoPlay s) = currentServiceIndex s.
Proof.
  unfold toggleServicesAutoPlay. cbn [isServicesAutoPlay servicesInterval].
  destruct (negb (isServicesAutoPlay s)).
  - now rewrite startServicesAutoPlay_index.
  - now destruct (servicesInterval s).
Qed.

Lemma nextService_index s :
  currentServiceIndex (nextService s)
  = if currentServiceIndex s <? services_length - 1
    then currentServiceIndex s + 1 else 0.
Proof. unfold nextService. now rewrite resetServicesAutoPlay_index. Qed.

Lemma previousService_index s :
  currentServiceIndex (previousService s)
  = if 0 <? currentServiceIndex s
    then currentServiceIndex s - 1 else services_length - 1.
Proof. unfold previousService. now rewrite resetServicesAutoPlay_index. Qed.

Lemma goToService_index i s : currentServiceIndex (goToService i s) = i.
Proof. unfold goToService. now rewrite resetServicesAutoPlay_index. Qed.

Lemma exec_in_bounds s c :
  in_bounds s -> admissible c -> in_bounds (exec s c).
Proof.
  unfold in_bounds. rewrite services_length_3. intros Hs Hc.
  destruct c as [i| | | | |]; cbn [exec].
  - rewrite goToService_index. exact Hc.
  - rewrite previousService_index, services_length_3.
    destruct (0 <? currentServiceIndex s) eqn:E; [apply Z.ltb_lt in E|]; lia.
  - rewrite nextService_index, services_length_3.
    destruct (currentServiceIndex s <? 3 - 1) eqn:E; [apply Z.ltb_lt in E|]; lia.
  - now rewrite toggleServicesAutoPlay_index.
  - now rewrite startServicesAutoPlay_index.
  - destruct (intervals s); [exact Hs|].
    rewrite nextService_index, services_length_3.
    destruct (currentServiceIndex s <? 3 - 1) eqn:E; [apply Z.ltb_lt in E|]; lia.
Qed.

Lemma run_in_bounds calls : forall s,
  in_bounds s -> Forall admissible calls -> in_bounds (fold_left exec calls s).
Proof.
  induction calls as [|c calls IH]; intros s Hs Hf; [exact Hs|].
  inversion Hf; subst. cbn [fold_left]. apply IH; [|assumption].
  now apply exec_in_bounds.
Qed.

(** C10: the carousel index stays an index of the three services.  After
    any sequence of nextService, previousService, goToService(i) with
    0 <= i < 3 (and of timer ticks and auto-play toggles) from the initial
    state, 0 <= currentServiceIndex < 3; nextService at the last index goes
    to 0 and previousService at index 0 goes to the last index. *)
Theorem service_index_in_bounds calls :
  Forall admissible calls ->
  0 <= currentServiceIndex (fold_left exec calls initial) < 3 /\
  (forall s, currentServiceIndex s = 2 ->
     currentServiceIndex (nextService s) = 0) /\
  (forall s, currentServiceIndex s = 0 ->
     currentServiceIndex (previousService s) = 2).
Proof.
  intros Hf. split; [| split].
  - apply (run_in_bounds calls initial); [|exact Hf].
    unfold in_bounds. rewrite services_length_3. cbn. lia.
  - intros s Hs. rewrite nextService_index, Hs. reflexivity.
  - intros s Hs. rewrite previousService_index, Hs. reflexivity.
Qed.

Lemma service_index_in_bounds_witness :
  Forall admissible [Init; Next; Next; Next; Previous; GoTo 2; Tick] /\
  0 <= currentServiceIndex
         (fold_left exec [Init; Next; Next; Next; Previous; GoTo 2; Tick] initial)
    < 3.
Proof.
  assert (Hf : Forall admissible [Init; Next; Next; Next; Previous; GoTo 2; Tick]).
  { repeat constructor; cbn; rewrite ?services_length_3; lia. }
  split; [exact Hf |].
  exact (proj1 (service_index_in_bounds _ Hf)).
Defined.

End ServicesFacts.

(** ** The lifecycle adapter: whole runs *)

Module LifecycleFacts.
Import Adapter Lifecycle AdapterFacts.
Local Open Scope nat_scope.

(** *** Start-up order *)

Lemma following_next l l' :
  next_loader l = Some l' -> following 7 l = FxLoad l' :: following 7 l'.
Proof. destruct l; intros E; inversion E; subst; reflexivity. Qed.

Lemma following_last l :
  next_loader l = None -> following 7 l = [FxConstruct].
Proof. destruct l; intros E; try discriminate; reflexivity. Qed.

Lemma startup_spelled :
  startup
  = [FxLoad LoadBasic; FxLoad LoadImageShape; FxLoad LoadExternalPush;
     FxLoad LoadExternalRepulse; FxLoad LoadParticlesLinks;
     FxLoad AddRockerSmooth; FxLoad AddRockerStep; FxConstruct].
Proof. reflexivity. Qed.

(** One event issues a piece of what remains, in order. *)
Lemma setup_step s e s' fx :
  step s e = Some (s', fx) ->
  exists rest,
    remaining s = filter is_setup fx ++ rest /\
    (remaining s' = rest \/ remaining s' = []).
Proof.
  intros H. destruct s as [pb c ip d rr q n].
  assert (Hdone : forall (l : list Effect) (x : State),
            filter is_setup l = [] ->
            initPromise x = ip \/ remaining x = [] ->
            exists rest,
              remaining (mkState pb c ip d rr q n) = filter is_setup l ++ rest /\
              (remaining x = rest \/ remaining x = [])).
  { intros l x Hl Hx. rewrite Hl. eexists. split; [reflexivity |].
    destruct Hx as [Hx | Hx]; [left | right; exact Hx].
    unfold remaining. now rewrite Hx. }
  destruct e as [|ok|r th| |th|th]; unfold_handlers; cbn in H.
  - destruct pb; cbn in H.
    + destruct ip as [[l| |]|]; inversion H; subst;
        try (apply Hdone; [reflexivity | left; reflexivity]).
      exists (following 7 LoadBasic). split; [reflexivity | now left].
    + inversion H; subst. apply Hdone; [reflexivity | left; reflexivity].
  - destruct ip as [[l| |]|]; try discriminate. destruct ok; cbn in H.
    + destruct (next_loader l) as [l'|] eqn:En.
      * inversion H; subst. exists (following 7 l'). unfold remaining.
        cbn [initPromise]. rewrite (following_next _ _ En). auto.
      * destruct d; inversion H; subst; unfold remaining; cbn [initPromise];
          rewrite (following_last _ En).
        -- exists [FxConstruct]. auto.
        -- exists []. auto.
    + inversion H; subst. apply Hdone; [reflexivity | right; reflexivity].
  - destruct ip as [[l| |]|]; try discriminate.
    destruct r as [[k|]|], d; cbn in H; try destruct (th _);
      inversion H; subst; apply Hdone; try reflexivity; right; reflexivity.
  - destruct c, rr; inversion H; subst;
      apply Hdone; try reflexivity; left; reflexivity.
  - assert (Hcb : forall qq ss ss' ff, run_callbacks th qq ss = (ss', ff) ->
        initPromise ss' = initPromise ss /\ filter is_setup ff = []).
    { induction qq as [|h qq IHq]; cbn; intros ss ss' ff E.
      - inversion E; subst; auto.
      - destruct (run_callbacks th qq (set_resizeRaf None ss))
          as [s2 f2] eqn:E2.
        destruct (IHq _ _ _ E2) as (A & B).
        unfold raf_callback, call in E. cbn in E.
        destruct (container ss); inversion E; subst; cbn; auto. }
    destruct (run_callbacks th q _) as [s2 f2] eqn:E2.
    destruct (Hcb _ _ _ _ E2) as (A & B). cbn in A.
    inversion H; subst s' fx. apply Hdone; [exact B | left; exact A].
  - destruct rr, c; cbn in H; try destruct (th _);
      inversion H; subst; apply Hdone; try reflexivity; left; reflexivity.
Qed.

Lemma setup_run evs : forall s s' log,
  run s evs = Some (s', log) ->
  exists rest, remaining s = filter is_setup log ++ rest.
Proof.
  induction evs as [|e evs IH]; cbn; intros s s' log H.
  - injection H as <- <-. exists (remaining s). reflexivity.
  - destruct (step s e) as [[s1 fx1]|] eqn:E; [|discriminate].
    destruct (run s1 evs) as [[s2 fx2]|] eqn:R; [|discriminate].
    inversion H; subst.
    destruct (setup_step _ _ _ _ E) as (rest & Hr & Hs1).
    destruct (IH _ _ _ R) as (rest2 & Hr2).
    rewrite filter_app, Hr.
    destruct Hs1 as [Hs1 | Hs1]; rewrite Hs1 in Hr2.
    + exists rest2. rewrite Hr2. now rewrite app_assoc.
    + destruct (filter is_setup fx2); [|discriminate].
      exists rest. now rewrite app_nil_r.
Qed.

(** X1: the set-up calls and the construction request are issued in the
    order of the source, each at most once: in every run of a fresh
    component, what the log holds of them is an initial piece of
    loadBasic, loadImageShape, loadExternalPushInteraction,
    loadExternalRepulseInteraction, loadParticlesLinksInteraction, the two
    addParticleUpdater calls, tsParticles.load; so when the construction
    has been requested, all seven set-up calls were issued before it. *)
Theorem startup_in_order b evs s log :
  run (init b) evs = Some (s, log) ->
  (exists rest, startup = filter is_setup log ++ rest) /\
  (In FxConstruct log -> filter is_setup log = startup).
Proof.
  intros H. destruct (setup_run _ _ _ _ H) as (rest & E).
  change (remaining (init b)) with startup in E.
  split; [exists rest; exact E |].
  intros Hin.
  assert (Hf : In FxConstruct (filter is_setup log))
    by (apply filter_In; split; [exact Hin | reflexivity]).
  rewrite startup_spelled in E |- *.
  destruct (filter is_setup log) as [|e fl]; [contradiction |].
  do 7 (injection E as <- E;
        destruct fl as [|e fl];
        [exfalso; cbn in Hf; intuition discriminate |]).
  injection E as <- E. symmetry in E. apply app_eq_nil in E.
  destruct E as [-> _]. reflexivity.
Qed.

Lemma startup_in_order_witness :
  run (init true) (activation ++ running) = Some (playing, playing_log) /\
  (exists rest, startup = filter is_setup playing_log ++ rest) /\
  (In FxConstruct playing_log -> filter is_setup playing_log = startup).
Proof.
  split; [reflexivity |].
  exact (startup_in_order true (activation ++ running) playing playing_log
           eq_refl).
Defined.

(** *** After ngOnDestroy *)

Lemma run_callbacks_nil th s : run_callbacks th [] s = (s, []).
Proof. reflexivity. Qed.

(** Once torn down, nothing is requested or scheduled any more, and the
    only engine call left is the destroy of a container that arrives
    late. *)
Lemma after_teardown_step s e s' fx :
  TornDown s -> step s e = Some (s', fx) ->
  TornDown s' /\
  count is_construct fx = 0 /\ count is_request fx = 0 /\
  (forall c op, In (FxCall c op) fx ->
     op = OpDestroy /\ exists th, e = EvConstructSettled (Resolved (Some c)) th).
Proof.
  intros (Hd & Hc & Hr & Hq) H. destruct s as [pb c ip d rr q n].
  cbn in Hd, Hc, Hr, Hq. subst. unfold TornDown.
  destruct e as [|ok|r th| |th|th]; unfold_handlers; cbn in H.
  - destruct pb; cbn in H; [destruct ip as [[l| |]|] |];
      inversion H; subst; cbn;
      (split; [auto | split; [reflexivity | split; [reflexivity |]]]);
      intros k op Hin; cbn in Hin; intuition discriminate.
  - destruct ip as [[l| |]|]; try discriminate.
    destruct ok; cbn in H; [destruct (next_loader l) |];
      inversion H; subst; cbn;
      (split; [auto | split; [reflexivity | split; [reflexivity |]]]);
      intros k op Hin; cbn in Hin; intuition discriminate.
  - destruct ip as [[l| |]|]; try discriminate.
    destruct r as [[k|]|]; cbn in H; [destruct (th OpDestroy) | |];
      inversion H; subst; cbn;
      (split; [auto | split; [reflexivity | split; [reflexivity |]]]);
      intros k0 op Hin; cbn in Hin;
      repeat (destruct Hin as [Hin|Hin]; try discriminate);
      try contradiction; inversion Hin; subst; eauto.
  - inversion H; subst; cbn.
    split; [auto | split; [reflexivity | split; [reflexivity |]]].
    intros k op [].
  - inversion H; subst; cbn.
    split; [auto | split; [reflexivity | split; [reflexivity |]]].
    intros k op [].
  - inversion H; subst; cbn.
    split; [auto | split; [reflexivity | split; [reflexivity |]]].
    intros k op [].
Qed.

Lemma after_teardown_run evs : forall s s' log,
  TornDown s -> run s evs = Some (s', log) ->
  TornDown s' /\
  count is_construct log = 0 /\ count is_request log = 0 /\
  (forall c op, In (FxCall c op) log ->
     op = OpDestroy /\
     exists th, In (EvConstructSettled (Resolved (Some c)) th) evs).
Proof.
  induction evs as [|e evs IH]; cbn; intros s s' log HT H.
  - injection H as <- <-.
    split; [exact HT | split; [reflexivity | split; [reflexivity |]]].
    intros ? ? [].
  - destruct (step s e) as [[s1 fx1]|] eqn:E; [|discriminate].
    destruct (run s1 evs) as [[s2 fx2]|] eqn:R; [|discriminate].
    injection H as <- <-.
    destruct (after_teardown_step _ _ _ _ HT E) as (T1 & A1 & B1 & C1).
    destruct (IH _ _ _ T1 R) as (T2 & A2 & B2 & C2).
    rewrite !count_app, A1, A2, B1, B2.
    split; [exact T2 | split; [reflexivity | split; [reflexivity |]]].
    intros c op Hin. apply in_app_or in Hin. destruct Hin as [Hin|Hin].
    + destruct (C1 _ _ Hin) as [Ho [th He]]. split; [exact Ho |].
      exists th. left. exact He.
    + destruct (C2 _ _ Hin) as [Ho [th He]]. split; [exact Ho |].
      exists th. right. exact He.
Qed.

(** X2: nothing comes back after ngOnDestroy.  From any reachable state,
    whatever happens after the teardown, [tsParticles.load] is never
    requested, no animation frame is requested, and no engine method is
    called except [destroy()] on a container that the construction hands
    over late; the component stays destroyed with no container stored. *)
Theorem nothing_after_teardown b evs s log th post s' log' :
  run (init b) evs = Some (s, log) ->
  run (fst (ngOnDestroy th s)) post = Some (s', log') ->
  count is_construct log' = 0 /\ count is_request log' = 0 /\
  (forall c op, In (FxCall c op) log' ->
     op = OpDestroy /\
     exists th', In (EvConstructSettled (Resolved (Some c)) th') post) /\
  destroyed s' = true /\ container s' = None.
Proof.
  intros H1 H2.
  pose proof (Inv_run _ _ _ _ (Inv_init b) H1) as HI.
  pose proof (TornDown_after th s HI) as HT.
  destruct (after_teardown_run _ _ _ _ HT H2) as ((Hd & Hc & _) & A & B & C).
  auto.
Qed.

Lemma nothing_after_teardown_witness :
  run (init true) activation = Some (awaiting, no_container_log) /\
  run (fst (ngOnDestroy never awaiting))
      [EvResize; EvConstructSettled (Resolved (Some 7)) never; EvFrame never]
    = Some (abandoned, [FxCall 7 OpDestroy]) /\
  count is_construct [FxCall 7 OpDestroy] = 0 /\
  count is_request [FxCall 7 OpDestroy] = 0 /\
  (forall c op, In (FxCall c op) [FxCall 7 OpDestroy] ->
     op = OpDestroy /\
     exists th', In (EvConstructSettled (Resolved (Some c)) th')
                    [EvResize; EvConstructSettled (Resolved (Some 7)) never;
                     EvFrame never]) /\
  destroyed abandoned = true /\ container abandoned = None.
Proof.
  split; [reflexivity | split; [reflexivity |]].
  exact (nothing_after_teardown true activation awaiting no_container_log
           never
           [EvResize; EvConstructSettled (Resolved (Some 7)) never;
            EvFrame never]
           abandoned [FxCall 7 OpDestroy] eq_refl eq_refl).
Defined.

(** *** A settled initialization *)

Lemma settled_step s e s' fx r :
  initPromise s = Some (Settled r) -> step s e = Some (s', fx) ->
  initPromise s' = Some (Settled r) /\ is_construct_settled e = false.
Proof.
  intros Hi H. destruct s as [pb c ip d rr q n]. cbn in Hi. subst ip.
  destruct e as [|ok|r0 th| |th|th]; unfold_handlers; cbn in H;
    try discriminate.
  - destruct pb; cbn in H; inversion H; subst; auto.
  - destruct c, rr; inversion H; subst; auto.
  - assert (Hcb : forall qq ss ss' ff, run_callbacks th qq ss = (ss', ff) ->
        initPromise ss' = initPromise ss).
    { induction qq as [|h qq IHq]; cbn; intros ss ss' ff E.
      - inversion E; subst; auto.
      - destruct (run_callbacks th qq (set_resizeRaf None ss))
          as [s2 f2] eqn:E2.
        pose proof (IHq _ _ _ E2) as A. inversion E; subst. exact A. }
    destruct (run_callbacks th q _) as [s2 f2] eqn:E2.
    pose proof (Hcb _ _ _ _ E2) as A. inversion H; subst s' fx. auto.
  - destruct rr, c; cbn in H; try destruct (th _);
      inversion H; subst; auto.
Qed.

Lemma settled_run evs : forall s s' log r,
  initPromise s = Some (Settled r) -> run s evs = Some (s', log) ->
  initPromise s' = Some (Settled r) /\
  forallb (fun e => negb (is_construct_settled e)) evs = true.
Proof.
  induction evs as [|e evs IH]; cbn; intros s s' log r Hi H.
  - injection H as <- <-. auto.
  - destruct (step s e) as [[s1 fx1]|] eqn:E; [|discriminate].
    destruct (run s1 evs) as [[s2 fx2]|] eqn:R; [|discriminate].
    injection H as <- <-.
    destruct (settled_step _ _ _ _ _ Hi E) as [I1 N1].
    destruct (IH _ _ _ _ I1 R) as [I2 N2].
    rewrite N1, N2. auto.
Qed.

(** A settled initialization without a container: no engine call. *)
Lemma failed_calls evs : forall s s' log,
  Quiet s -> initPromise s = Some (Settled (Resolved None)) ->
  run s evs = Some (s', log) ->
  forall c op, ~ In (FxCall c op) log.
Proof.
  intros s s' log HQ Hi H.
  destruct (settled_run _ _ _ _ _ Hi H) as [_ Hn].
  now destruct (Quiet_run _ _ _ _ HQ Hn H).
Qed.

(** X3: a set-up call that fails ends the initialization.  When any of the
    awaited set-up calls rejects, the failure is logged once,
    [tsParticles.load] has not been and never will be requested, and for
    the rest of the component's life no container is stored, no engine
    method is called and no initialization is started again. *)
Theorem setup_failure b evs s log l :
  run (init b) evs = Some (s, log) ->
  initPromise s = Some (AwaitLoad l) ->
  count is_construct log = 0 /\
  exists s',
    step s (EvLoadSettled false) = Some (s', [FxConsoleError]) /\
    forall evs' s'' log',
      run s' evs' = Some (s'', log') ->
      container s'' = None /\
      initPromise s'' = Some (Settled (Resolved None)) /\
      count is_begin log' = 0 /\ count is_construct log' = 0 /\
      forall c op, ~ In (FxCall c op) log'.
Proof.
  intros H Hi.
  pose proof (Inv_run _ _ _ _ (Inv_init b) H) as HI.
  assert (HQ : Quiet s).
  { apply Inv_Quiet; [exact HI |]. intros r. rewrite Hi. discriminate. }
  destruct (budget_run _ _ _ _ H) as (_ & _ & Hc & _).
  unfold construct_budget in Hc. rewrite Hi in Hc. cbn in Hc.
  split; [lia |].
  destruct s as [pb c ip d rr q n]. cbn in Hi. subst ip.
  destruct HQ as (Hcn & Hrn & Hqn). cbn in Hcn, Hrn, Hqn. subst.
  eexists. split; [reflexivity |].
  intros evs' s'' log' R.
  assert (Q' : Quiet (settle (Resolved None)
                        (mkState pb None (Some (AwaitLoad l)) d None [] n)))
    by (repeat split).
  destruct (Failed_run _ _ _ _ Q' eq_refl R) as ([Q2 I2] & B & C).
  split; [apply Q2 | split; [exact I2 | split; [exact B | split; [exact C |]]]].
  exact (failed_calls _ _ _ _ Q' eq_refl R).
Qed.

Lemma setup_failure_witness :
  run (init true) [EvViewInit] = Some (loading, [FxLoad LoadBasic]) /\
  count is_construct [FxLoad LoadBasic] = 0 /\
  exists s',
    step loading (EvLoadSettled false) = Some (s', [FxConsoleError]) /\
    forall evs' s'' log',
      run s' evs' = Some (s'', log') ->
      container s'' = None /\
      initPromise s'' = Some (Settled (Resolved None)) /\
      count is_begin log' = 0 /\ count is_construct log' = 0 /\
      forall c op, ~ In (FxCall c op) log'.
Proof.
  split; [reflexivity |].
  exact (setup_failure true [EvViewInit] loading [FxLoad LoadBasic] LoadBasic
           eq_refl eq_refl).
Defined.

(** *** Failing engine methods *)

(** With a container stored the initialization has settled, so after the
    teardown no engine call is left. *)
Lemma stored_then_torn_down th s c evs s' log :
  Inv s -> container s = Some c ->
  run (fst (ngOnDestroy th s)) evs = Some (s', log) ->
  forall k op, ~ In (FxCall k op) log.
Proof.
  intros HI Hc H.
  destruct (proj1 HI c Hc) as [_ [r Hi]].
  pose proof (TornDown_after th s HI) as (_ & Tc & Tr & Tq).
  assert (Hi' : initPromise (fst (ngOnDestroy th s)) = Some (Settled r)).
  { destruct s as [pb c0 ip d rr q n]. cbn in Hi. subst ip.
    unfold_handlers; cbn. destruct rr, c0; cbn; try destruct (th _); reflexivity. }
  destruct (settled_run _ _ _ _ _ Hi' H) as [_ Hn].
  assert (HQ : Quiet (fst (ngOnDestroy th s))) by (repeat split; assumption).
  now destruct (Quiet_run _ _ _ _ HQ Hn H).
Qed.

Lemma ngOnDestroy_calls th s c :
  container s = Some c ->
  exists pre,
    snd (ngOnDestroy th s)
    = pre ++ FxCall c OpStop
          :: (if th OpStop then [] else [FxCall c OpDestroy]) /\
    forall k op, ~ In (FxCall k op) pre.
Proof.
  intros Hc. destruct s as [pb c0 ip d rr q n]. cbn in Hc. subst c0.
  unfold_handlers; cbn. destruct rr as [h|]; cbn.
  - exists [FxCancelFrame h]. split.
    + destruct (th OpStop); reflexivity.
    + intros k op [F|[]]. discriminate.
  - exists []. split.
    + destruct (th OpStop); reflexivity.
    + intros k op [].
Qed.

(** X4: a throwing [stop()] costs the release.  When ngOnDestroy runs
    with a container stored, [stop()] is called on it; if that call
    returns, [destroy()] follows at once, but if it throws, the exception
    is swallowed, [container] is cleared all the same, and [destroy()] is
    not called on the container then or at any later time. *)
Theorem stop_failure_skips_destroy b evs s log c th post s' log' :
  run (init b) evs = Some (s, log) ->
  container s = Some c ->
  run (fst (ngOnDestroy th s)) post = Some (s', log') ->
  In (FxCall c OpStop) (snd (ngOnDestroy th s)) /\
  (th OpStop = false ->
   In (FxCall c OpDestroy) (snd (ngOnDestroy th s))) /\
  (th OpStop = true ->
   forall k, ~ In (FxCall k OpDestroy) (snd (ngOnDestroy th s) ++ log')) /\
  container (fst (ngOnDestroy th s)) = None /\ container s' = None.
Proof.
  intros H Hc R.
  pose proof (Inv_run _ _ _ _ (Inv_init b) H) as HI.
  destruct (ngOnDestroy_calls th s c Hc) as (pre & Hfx & Hpre).
  pose proof (stored_then_torn_down th s c post s' log' HI Hc R) as Hnone.
  pose proof (TornDown_after th s HI) as HT.
  destruct (TornDown_run _ _ _ _ HT R) as ((_ & Hc' & _) & _ & _).
  rewrite Hfx. split; [| split; [| split; [| split]]].
  - apply in_or_app. right. now left.
  - intros E. rewrite E. apply in_or_app. right. right. now left.
  - intros E k Hin. rewrite E in Hin.
    apply in_app_or in Hin. destruct Hin as [Hin|Hin]; [| now elim (Hnone k OpDestroy)].
    apply in_app_or in Hin. destruct Hin as [Hin|[Hin|[]]].
    + now elim (Hpre k OpDestroy).
    + discriminate.
  - apply ngOnDestroy_clears.
  - exact Hc'.
Qed.

Lemma stop_failure_skips_destroy_witness :
  run (init true) (activation ++ running) = Some (playing, playing_log) /\
  snd (ngOnDestroy stop_throws playing) = [FxCancelFrame 1; FxCall 7 OpStop] /\
  (forall k, ~ In (FxCall k OpDestroy)
                (snd (ngOnDestroy stop_throws playing) ++ [])) /\
  container (fst (ngOnDestroy stop_throws playing)) = None.
Proof.
  split; [reflexivity | split; [reflexivity |]].
  destruct (stop_failure_skips_destroy true (activation ++ running) playing
              playing_log 7 stop_throws [EvFrame never; EvResize]
              (fst (ngOnDestroy stop_throws playing)) []
              eq_refl eq_refl eq_refl) as (_ & _ & Hnever & Hc & _).
  split; [apply Hnever; reflexivity | exact Hc].
Defined.

(** X5: a throwing [play()] leaves the container in place.  When the
    construction hands over a container to a component that is not
    destroyed and [play()] throws, the failure is logged and [initPromise]
    resolves to null, but the container stays stored: a resize still
    schedules a refresh of it, and ngOnDestroy still stops and destroys
    it. *)
Theorem play_failure_keeps_container b evs s log c th :
  run (init b) evs = Some (s, log) ->
  initPromise s = Some AwaitConstruct ->
  destroyed s = false ->
  th OpPlay = true ->
  exists s',
    step s (EvConstructSettled (Resolved (Some c)) th)
      = Some (s', [FxCall c OpPlay; FxConsoleError]) /\
    initPromise s' = Some (Settled (Resolved None)) /\
    container s' = Some c /\
    snd (onWindowResized s') = [FxRequestFrame (nextRaf s)] /\
    snd (ngOnDestroy never s') = [FxCall c OpStop; FxCall c OpDestroy].
Proof.
  intros H Hi Hd Ht.
  pose proof (Inv_run _ _ _ _ (Inv_init b) H) as HI.
  assert (HQ : Quiet s).
  { apply Inv_Quiet; [exact HI |]. intros r. rewrite Hi. discriminate. }
  destruct s as [pb c0 ip d rr q n]. cbn in Hi, Hd. subst ip d.
  destruct HQ as (Hcn & Hrn & Hqn). cbn in Hcn, Hrn, Hqn. subst.
  unfold_handlers; cbn. rewrite Ht. cbn.
  eexists. split; [reflexivity |]. cbn. auto.
Qed.

Lemma play_failure_keeps_container_witness :
  run (init true) activation = Some (awaiting, no_container_log) /\
  exists s',
    step awaiting (EvConstructSettled (Resolved (Some 7)) play_throws)
      = Some (s', [FxCall 7 OpPlay; FxConsoleError]) /\
    initPromise s' = Some (Settled (Resolved None)) /\
    container s' = Some 7 /\
    snd (onWindowResized s') = [FxRequestFrame (nextRaf awaiting)] /\
    snd (ngOnDestroy never s') = [FxCall 7 OpStop; FxCall 7 OpDestroy].
Proof.
  split; [reflexivity |].
  exact (play_failure_keeps_container true activation awaiting
           no_container_log 7 play_throws eq_refl eq_refl eq_refl eq_refl).
Defined.

(** *** Animation frames *)

(** One event keeps the books of the animation frames balanced. *)
Lemma frames_step s e s' fx :
  Inv s -> step s e = Some (s', fx) ->
  count is_request fx + pending s
  = count (is_call OpRefresh) fx + count is_cancel fx + pending s'.
Proof.
  intros (Hc & Hq & Hr) H. destruct s as [pb c ip d rr q n].
  cbn in Hc, Hq, Hr. unfold pending.
  assert (Hrc : rr = None \/ exists h k, rr = Some h /\ c = Some k).
  { destruct rr as [h|]; [right | now left].
    destruct c as [k|]; [eauto | exfalso; apply Hr; [discriminate | reflexivity]]. }
  clear Hr Hc.
  destruct e as [|ok|r th| |th|th]; unfold_handlers; cbn in H;
    destruct Hrc as [-> | (h & k & -> & ->)]; subst q; cbn in H;
    try (rewrite Nat.eqb_refl in H; cbn in H); cbn [resizeRaf];
    repeat match goal with
           | H : context [match ?x with _ => _ end] |- _ => destruct x eqn:?
           end;
    try discriminate; inversion H; subst;
    repeat match goal with
           | H : (_, _) = (_, _) |- _ => inversion H; clear H
           end;
    subst; reflexivity.
Qed.

Lemma frames_run evs : forall s s' log,
  Inv s -> run s evs = Some (s', log) ->
  count is_request log + pending s
  = count (is_call OpRefresh) log + count is_cancel log + pending s'.
Proof.
  induction evs as [|e evs IH]; cbn; intros s s' log HI H.
  - injection H as <- <-. reflexivity.
  - destruct (step s e) as [[s1 fx1]|] eqn:E; [|discriminate].
    destruct (run s1 evs) as [[s2 fx2]|] eqn:R; [|discriminate].
    injection H as <- <-.
    pose proof (frames_step _ _ _ _ HI E) as H1.
    pose proof (IH _ _ _ (Inv_step _ _ _ _ HI E) R) as H2.
    rewrite !count_app. lia.
Qed.

(** X6: every requested animation frame is accounted for.  In every run
    of a fresh component the number of [requestAnimationFrame] calls is
    the number of [refresh()] calls, plus the number of
    [cancelAnimationFrame] calls, plus one if a callback is still pending:
    a scheduled refresh is carried out, cancelled by ngOnDestroy, or still
    waiting, and no refresh happens without having been scheduled. *)
Theorem frames_accounted b evs s log :
  run (init b) evs = Some (s, log) ->
  count is_request log
  = count (is_call OpRefresh) log + count is_cancel log + pending s.
Proof.
  intros H. pose proof (frames_run _ _ _ _ (Inv_init b) H) as E.
  cbn in E. lia.
Qed.

Lemma frames_accounted_witness :
  run (init true) (activation ++ running ++ [EvFrame never; EvResize])
    = Some (mkState true (Some 7) (Some (Settled (Resolved (Some 7)))) false
                    (Some 2) [2] 3,
            playing_log ++ [FxCall 7 OpRefresh; FxRequestFrame 2]) /\
  count is_request (playing_log ++ [FxCall 7 OpRefresh; FxRequestFrame 2])
  = count (is_call OpRefresh)
          (playing_log ++ [FxCall 7 OpRefresh; FxRequestFrame 2])
    + count is_cancel (playing_log ++ [FxCall 7 OpRefresh; FxRequestFrame 2])
    + 1.
Proof.
  split; [reflexivity |].
  exact (frames_accounted true
           (activation ++ running ++ [EvFrame never; EvResize])
           (mkState true (Some 7) (Some (Settled (Resolved (Some 7)))) false
                    (Some 2) [2] 3)
           (playing_log ++ [FxCall 7 OpRefresh; FxRequestFrame 2]) eq_refl).
Defined.

(** *** Engine calls *)

(** A call goes to the stored container or to the one just handed over,
    and a stored container is one that was stored or just handed over. *)
Lemma target_step s e s' fx :
  step s e = Some (s', fx) ->
  (forall c op, In (FxCall c op) fx ->
     container s = Some c \/
     exists th, e = EvConstructSettled (Resolved (Some c)) th) /\
  (forall c, container s' = Some c ->
     container s = Some c \/
     exists th, e = EvConstructSettled (Resolved (Some c)) th).
Proof.
  intros H. destruct s as [pb c0 ip d rr q n].
  destruct e as [|ok|r th| |th|th]; unfold_handlers; cbn in H.
  - destruct pb; cbn in H; [destruct ip as [[l| |]|] |];
      inversion H; subst; cbn; split; auto;
      intros k op Hin; cbn in Hin; intuition discriminate.
  - destruct ip as [[l| |]|]; try discriminate.
    destruct ok; cbn in H; [destruct (next_loader l); [| destruct d] |];
      inversion H; subst; cbn; split; auto;
      intros k op Hin; cbn in Hin; intuition discriminate.
  - destruct ip as [[l| |]|]; try discriminate.
    destruct r as [[k|]|], d; cbn in H; try destruct (th _);
      inversion H; subst; cbn; split;
      try (intros k0 op Hin; cbn in Hin;
           repeat (destruct Hin as [Hin|Hin]; try discriminate);
           try contradiction; inversion Hin; subst; eauto);
      try (intros k0 E; try discriminate; inversion E; subst; eauto).
  - destruct c0, rr; inversion H; subst; cbn; split; auto;
      intros k op Hin; cbn in Hin; intuition discriminate.
  - assert (Hcb : forall qq ss ss' ff, run_callbacks th qq ss = (ss', ff) ->
        container ss' = container ss /\
        forall k op, In (FxCall k op) ff -> container ss = Some k).
    { induction qq as [|h qq IHq]; cbn; intros ss ss' ff E.
      - inversion E; subst. split; [reflexivity | intros k op []].
      - destruct (run_callbacks th qq (set_resizeRaf None ss))
          as [s2 f2] eqn:E2.
        destruct (IHq _ _ _ E2) as (A & B). cbn in A, B.
        unfold raf_callback, call in E. cbn in E.
        inversion E; subst. split; [exact A |].
        intros k op Hin. apply in_app_or in Hin. destruct Hin as [Hin|Hin].
        + destruct (container ss); cbn in Hin; [| contradiction].
          destruct Hin as [Hin|[]]. now inversion Hin.
        + eauto. }
    destruct (run_callbacks th q _) as [s2 f2] eqn:E2.
    destruct (Hcb _ _ _ _ E2) as (A & B). cbn in A, B.
    inversion H; subst s' fx. split.
    + intros k op Hin. left. cbn. eauto.
    + intros k Hk. left. cbn. congruence.
  - destruct rr, c0; cbn in H; try destruct (th _);
      inversion H; subst; cbn; split;
      try (intros k0 op Hin; cbn in Hin;
           repeat (destruct Hin as [Hin|Hin]; try discriminate);
           try contradiction; inversion Hin; subst; eauto);
      try (intros k0 E; discriminate).
Qed.

Lemma target_run evs : forall s s' log,
  run s evs = Some (s', log) ->
  forall c op, In (FxCall c op) log ->
    container s = Some c \/
    exists th, In (EvConstructSettled (Resolved (Some c)) th) evs.
Proof.
  induction evs as [|e evs IH]; cbn; intros s s' log H c op Hin.
  - injection H as <- <-. contradiction.
  - destruct (step s e) as [[s1 fx1]|] eqn:E; [|discriminate].
    destruct (run s1 evs) as [[s2 fx2]|] eqn:R; [|discriminate].
    injection H as <- <-.
    destruct (target_step _ _ _ _ E) as [T1 T2].
    apply in_app_or in Hin. destruct Hin as [Hin|Hin].
    + destruct (T1 _ _ Hin) as [A | [th A]]; [now left | right].
      exists th. now left.
    + destruct (IH _ _ _ R _ _ Hin) as [A | [th A]].
      * destruct (T2 _ A) as [B | [th B]]; [now left | right].
        exists th. now left.
      * right. exists th. now right.
Qed.

(** Each of [play()], [stop()] and [destroy()] uses up its one turn. *)
Lemma once_step s e s' fx :
  Inv s -> step s e = Some (s', fx) ->
  count (is_call OpPlay) fx + settle_budget s' <= settle_budget s /\
  count (is_call OpStop) fx + release_budget s' <= release_budget s /\
  count (is_call OpDestroy) fx + release_budget s' <= release_budget s.
Proof.
  intros (Hc & Hq & Hr) H. destruct s as [pb c ip d rr q n].
  cbn in Hc, Hq, Hr. unfold release_budget, settle_budget.
  assert (Hrc : (rr = None /\ c = None) \/
                exists r, ip = Some (Settled r) /\
                          (rr = None \/ exists h k, rr = Some h /\ c = Some k)).
  { destruct c as [k|].
    - destruct (Hc k eq_refl) as [_ [r Hip]]. right. exists r.
      split; [exact Hip |]. destruct rr; eauto.
    - left. split; [| reflexivity]. destruct rr; [| reflexivity].
      exfalso. apply Hr; [discriminate | reflexivity]. }
  clear Hr Hc.
  destruct e as [|ok|r th| |th|th]; unfold_handlers; cbn in H;
    destruct Hrc as [[-> ->] | (r0 & -> & [-> | (h & k & -> & ->)])];
    subst q; cbn in H;
    try (rewrite Nat.eqb_refl in H; cbn in H); cbn [container initPromise];
    repeat match goal with
           | H : context [match ?x with _ => _ end] |- _ => destruct x eqn:?
           end;
    try discriminate; inversion H; subst;
    repeat match goal with
           | H : (_, _) = (_, _) |- _ => inversion H; clear H
           end;
    subst; cbn; repeat split; auto.
Qed.

Lemma once_run evs : forall s s' log,
  Inv s -> run s evs = Some (s', log) ->
  count (is_call OpPlay) log + settle_budget s' <= settle_budget s /\
  count (is_call OpStop) log + release_budget s' <= release_budget s /\
  count (is_call OpDestroy) log + release_budget s' <= release_budget s.
Proof.
  induction evs as [|e evs IH]; cbn; intros s s' log HI H.
  - injection H as <- <-. cbn. auto.
  - destruct (step s e) as [[s1 fx1]|] eqn:E; [|discriminate].
    destruct (run s1 evs) as [[s2 fx2]|] eqn:R; [|discriminate].
    injection H as <- <-.
    destruct (once_step _ _ _ _ HI E) as (A1 & B1 & C1).
    destruct (IH _ _ _ (Inv_step _ _ _ _ HI E) R) as (A2 & B2 & C2).
    rewrite !count_app. lia.
Qed.

(** X7: one container, used once each way.  In every run of a fresh
    component every engine call goes to a container that the construction
    handed over in that run, and [play()], [stop()] and [destroy()] are
    each called at most once: nothing is played, stopped or destroyed
    twice. *)
Theorem engine_calls_once b evs s log :
  run (init b) evs = Some (s, log) ->
  (forall c op, In (FxCall c op) log ->
     exists th, In (EvConstructSettled (Resolved (Some c)) th) evs) /\
  count (is_call OpPlay) log <= 1 /\
  count (is_call OpStop) log <= 1 /\
  count (is_call OpDestroy) log <= 1.
Proof.
  intros H. split.
  - intros c op Hin.
    destruct (target_run _ _ _ _ H _ _ Hin) as [F | A]; [discriminate | exact A].
  - destruct (once_run _ _ _ _ (Inv_init b) H) as (A & B & C).
    cbn in A, B, C. lia.
Qed.

Lemma engine_calls_once_witness :
  run (init true) (activation ++ running ++ [EvDestroy never; EvDestroy never])
    = Some (mkState true None (Some (Settled (Resolved (Some 7)))) true None [] 2,
            playing_log ++ [FxCancelFrame 1; FxCall 7 OpStop; FxCall 7 OpDestroy]) /\
  count (is_call OpPlay)
    (playing_log ++ [FxCancelFrame 1; FxCall 7 OpStop; FxCall 7 OpDestroy]) <= 1 /\
  count (is_call OpStop)
    (playing_log ++ [FxCancelFrame 1; FxCall 7 OpStop; FxCall 7 OpDestroy]) <= 1 /\
  count (is_call OpDestroy)
    (playing_log ++ [FxCancelFrame 1; FxCall 7 OpStop; FxCall 7 OpDestroy]) <= 1.
Proof.
  split; [reflexivity |].
  exact (proj2 (engine_calls_once true
    (activation ++ running ++ [EvDestroy never; EvDestroy never])
    (mkState true None (Some (Settled (Resolved (Some 7)))) true None [] 2)
    (playing_log ++ [FxCancelFrame 1; FxCall 7 OpStop; FxCall 7 OpDestroy])
    eq_refl)).
Defined.

End LifecycleFacts.

(** ** The particle updaters: over many frames *)

Module RockerMotion.
Import PrimFloat FloatOps SpecFloat FloatAxioms.
Import Float64 Float64Facts Rocker RockerFacts.
Local Open Scope float_scope.

(** X9: the stepped oscillation is a square wave over its first cycle.
    For an enabled particle with a hold above 0, by the private time the
    frames have accumulated: from 0 up to the hold the rotation is the
    low bound, from the hold up to twice the hold it is the high bound. *)
Theorem step_square_wave q ds :
  step_isEnabled q = true -> ds <> [] -> (0 <? hold_of q) = true ->
  let t := elapsed (nullish (__rockStep q) 0) ds in
  ((0 <=? t) = true -> (t <? hold_of q) = true ->
   rotation (frames step_update q ds) = radians_of_degrees (low_of q)) /\
  ((hold_of q <=? t) = true -> (t <? cycle_of q) = true ->
   rotation (frames step_update q ds) = radians_of_degrees (high_of q)).
Proof.
  intros He Hd H0. rewrite (step_frames ds q He Hd). cbv zeta.
  cbn [rotation]. unfold radians_of_degrees. split.
  - intros Ht0 Hlt. now rewrite step_deg_low.
  - intros Hle Hlt. now rewrite step_deg_high.
Qed.

Lemma step_square_wave_witness :
  rotation (frames step_update (fresh stepping) [500; 1000])
    = radians_of_degrees 0 /\
  rotation (frames step_update (fresh stepping) [3000])
    = radians_of_degrees 30.
Proof.
  split.
  - apply (step_square_wave (fresh stepping) [500; 1000] eq_refl);
      [discriminate | reflexivity | reflexivity | reflexivity].
  - apply (step_square_wave (fresh stepping) [3000] eq_refl);
      [discriminate | reflexivity | reflexivity | reflexivity].
Defined.

Lemma step_deg_nonpositive_hold aLow aHigh hold t :
  (hold <=? 0) = true -> (0 <=? t) = true ->
  step_deg aLow aHigh hold t = aHigh.
Proof.
  intros Hh Ht. unfold step_deg.
  now rewrite (unsigned_not_below _ _ (js_rem_unsigned t (2 * hold) Ht) Hh).
Qed.

(** X10: a hold that is not positive never shows the low bound.  For an
    enabled particle whose configured hold is 0 (the remainder is NaN) or
    negative, and a private time that is not negative, the rotation after
    any frames is the high bound. *)
Theorem step_nonpositive_hold q ds :
  step_isEnabled q = true -> (hold_of q <=? 0) = true -> ds <> [] ->
  (0 <=? elapsed (nullish (__rockStep q) 0) ds) = true ->
  rotation (frames step_update q ds) = radians_of_degrees (high_of q).
Proof.
  intros He Hh Hd H0. rewrite (step_frames ds q He Hd). cbv zeta.
  cbn [rotation]. now rewrite step_deg_nonpositive_hold.
Qed.

Lemma step_nonpositive_hold_witness :
  rotation (frames step_update (fresh frozen) [16; 16])
    = radians_of_degrees 45.
Proof.
  exact (step_nonpositive_hold (fresh frozen) [16; 16] eq_refl eq_refl
           ltac:(discriminate) eq_refl).
Defined.

(** *** The smooth oscillation at a period of 0 *)

Lemma add_nan_r x : x + nan = nan.
Proof.
  apply Prim2SF_inj. rewrite add_spec. change (Prim2SF nan) with S754_nan.
  unfold SF64add, SFadd. now destruct (Prim2SF x).
Qed.

Lemma mul_nan_r x : x * nan = nan.
Proof.
  apply Prim2SF_inj. rewrite mul_spec. change (Prim2SF nan) with S754_nan.
  unfold SF64mul, SFmul. now destruct (Prim2SF x).
Qed.

(** Twice [Math.PI] over a zero is an infinity, and an infinity times
    any number is an infinity or NaN. *)
Lemma omega_unbounded period t :
  is_zero period = true ->
  is_nan ((2 * PI) / period * t) || is_infinity ((2 * PI) / period * t) = true.
Proof.
  intros Hz. unfold is_nan, is_infinity, is_zero in *.
  rewrite !eqb_spec, abs_spec, mul_spec, div_spec in *.
  change (Prim2SF (2 * PI)) with (S754_finite false 7074237752028440 (-50)) in *.
  change (Prim2SF zero) with (S754_zero false) in *.
  change (Prim2SF infinity) with (S754_infinity false) in *.
  unfold SF64mul, SF64div, SFeqb in *.
  destruct (Prim2SF period) as [[|]|[|]| |[|] ? ?]; try discriminate;
    destruct (Prim2SF t) as [[|]|[|]| |[|] ? ?]; reflexivity.
Qed.

(** X24: a period of 0 makes the smooth rotation NaN.  For an enabled
    particle whose configured period is a zero, omega is an infinity, so
    the sine is asked at an infinity or at NaN whatever the frames; with
    [Math.sin] answering NaN there the rotation written is NaN. *)
Theorem smooth_zero_period Math_sin rnd p ds :
  smooth_isEnabled p = true -> ds <> [] ->
  is_zero (period_of p) = true ->
  (forall x, is_nan x || is_infinity x = true -> Math_sin x = nan) ->
  rotation (frames (smooth_update Math_sin rnd) p ds) = nan.
Proof.
  intros He Hd Hz Hsin. rewrite (smooth_frames Math_sin rnd ds p He Hd).
  cbv zeta. cbn [rotation]. unfold smooth_deg.
  rewrite Hsin by (apply omega_unbounded; exact Hz).
  now rewrite mul_nan_r, add_nan_r.
Qed.

Lemma sin_answers_unbounded x :
  is_nan x || is_infinity x = true -> sin_answers x = nan.
Proof.
  intros H. unfold sin_answers, answers. cbn [find fst snd].
  unfold is_nan, is_infinity in H. rewrite !eqb_spec, ?abs_spec in *.
  change (Prim2SF 0x1.f6a7a2955385dp+2) with (S754_finite false 8842797190035549 (-50)) in *.
  change (Prim2SF 0x1.921fb54442d18p+2) with (S754_finite false 7074237752028440 (-50)) in *.
  change (Prim2SF infinity) with (S754_infinity false) in *.
  unfold SFeqb in *.
  destruct (Prim2SF x) as [[|]|[|]| |[|] m e]; try reflexivity; cbn in H.
  all: rewrite Z.compare_refl, Pos.compare_cont_refl in H; discriminate.
Qed.

Lemma smooth_zero_period_witness :
  rotation (frames (smooth_update sin_answers 0.5) (fresh still) [16; 16]) = nan.
Proof.
  exact (smooth_zero_period sin_answers 0.5 (fresh still) [16; 16] eq_refl
           ltac:(discriminate) eq_refl sin_answers_unbounded).
Defined.

(** *** The two updaters side by side *)

Lemma smooth_update_keeps sin rnd p d :
  shapeData (smooth_update sin rnd p d) = shapeData p /\
  __rockStep (smooth_update sin rnd p d) = __rockStep p.
Proof. unfold smooth_update. destruct (smooth_isEnabled p); auto. Qed.

Lemma step_update_keeps p d :
  shapeData (step_update p d) = shapeData p /\
  __rock (step_update p d) = __rock p.
Proof. unfold step_update. destruct (step_isEnabled p); auto. Qed.

(** X11: each updater minds its own particles and its own clock.  Over
    any frames, an updater leaves a particle that has not enabled it
    exactly as it is, and on a particle that has, it never changes the
    particle's options nor the private time of the other updater. *)
Theorem updaters_isolated Math_sin rnd ds : forall p,
  (smooth_isEnabled p = false -> frames (smooth_update Math_sin rnd) p ds = p) /\
  (step_isEnabled p = false -> frames step_update p ds = p) /\
  shapeData (frames (smooth_update Math_sin rnd) p ds) = shapeData p /\
  __rockStep (frames (smooth_update Math_sin rnd) p ds) = __rockStep p /\
  shapeData (frames step_update p ds) = shapeData p /\
  __rock (frames step_update p ds) = __rock p.
Proof.
  unfold frames. induction ds as [|d ds IH]; intros p; cbn [fold_left].
  - repeat split; reflexivity.
  - destruct (IH (smooth_update Math_sin rnd p d)) as (A1 & _ & A3 & A4 & _ & _).
    destruct (IH (step_update p d)) as (_ & B2 & _ & _ & B5 & B6).
    destruct (smooth_update_keeps Math_sin rnd p d) as [S1 S2].
    destruct (step_update_keeps p d) as [T1 T2].
    split; [| split; [| split; [| split; [| split]]]]; try congruence.
    + intros He. destruct (IH p) as (A & _).
      assert (E : smooth_update Math_sin rnd p d = p)
        by (unfold smooth_update; now rewrite He).
      rewrite E. now apply A.
    + intros He. destruct (IH p) as (_ & B & _).
      assert (E : step_update p d = p)
        by (unfold step_update; now rewrite He).
      rewrite E. now apply B.
Qed.

End RockerMotion.

(** ** The navigation bar: tracking and highlighting *)

Module TrackingFacts.
Import Navigation Tracking NavigationFacts.
Local Open Scope nat_scope.
Local Open Scope string_scope.
Local Open Scope list_scope.

(** *** The computed section *)

Lemma scan_in w m secs d : In (scan w m secs d) (d :: map fst secs).
Proof.
  induction secs as [|[id [el|]] secs IH]; cbn.
  - now left.
  - destruct (in_view w m el); [right; now left |].
    destruct IH as [IH|IH]; [now left | right; now right].
  - destruct IH as [IH|IH]; [now left | right; now right].
Qed.

Lemma setActiveSection_idem id s :
  setActiveSection id (setActiveSection id s) = setActiveSection id s.
Proof.
  unfold setActiveSection. cbn. f_equal. rewrite map_map. apply map_ext.
  intros item. reflexivity.
Qed.

(** X12: the recomputation settles on the computed section.  After
    updateActiveSection the current section is the section computed from
    the page, which is always "top" or one of the three tracked ids; and
    running it again on the same page changes nothing. *)
Theorem update_tracks_computed w s :
  currentActiveSection (updateActiveSection w s) = computedSection w /\
  In (computedSection w) ("top" :: sectionIds) /\
  updateActiveSection w (updateActiveSection w s) = updateActiveSection w s.
Proof.
  unfold updateActiveSection, computedSection. cbv zeta.
  destruct (Qlt_bool (scrollY w) 100).
  - split; [reflexivity | split; [now left | apply setActiveSection_idem]].
  - set (a := scan w (scrollY w + innerHeight w / 2)%Q (sections w) "top").
    assert (Hin : In a ("top" :: sectionIds))
      by exact (scan_in w _ (sections w) "top").
    destruct (String.eqb a (currentActiveSection s)) eqn:E; cbn.
    + apply String.eqb_eq in E. split; [now symmetry | split; [exact Hin |]].
      now rewrite <- E, String.eqb_refl.
    + split; [reflexivity | split; [exact Hin |]].
      now rewrite String.eqb_refl.
Qed.

(** *** Highlighting *)

Lemma same_links_setActiveSection id s :
  same_links s -> same_links (setActiveSection id s).
Proof.
  unfold same_links, setActiveSection. cbn [navigationItems]. intros H.
  rewrite map_map. cbn. exact H.
Qed.

Lemma Highlight_setActiveSection id s :
  same_links s -> Highlight (setActiveSection id s).
Proof.
  intros Hs. split; [now apply same_links_setActiveSection | split].
  - unfold active_count, setActiveSection. cbn [navigationItems].
    unfold same_links in Hs. cbn in Hs.
    destruct (navigationItems s) as [|[l0 p0 t0 a0] [|[l1 p1 t1 a1]
      [|[l2 p2 t2 a2] [|[l3 p3 t3 a3] [|x rest]]]]]; try discriminate.
    cbn in Hs. injection Hs as -> -> -> ->.
    cbn [map filter isActive scrollTarget].
    destruct (String.eqb_spec "top" id) as [<-|_]; [cbn; lia |].
    destruct (String.eqb_spec "gallery-section" id) as [<-|_]; [cbn; lia |].
    destruct (String.eqb_spec "services-section" id) as [<-|_]; [cbn; lia |].
    destruct (String.eqb "about-me-section" id); cbn; lia.
  - intros item Hin Ha. unfold setActiveSection in Hin. cbn in Hin |- *.
    apply in_map_iff in Hin. destruct Hin as (it0 & <- & _). cbn in Ha |- *.
    now apply String.eqb_eq.
Qed.

Lemma Highlight_initial : Highlight initial.
Proof.
  split; [reflexivity | split; [cbn; lia |]].
  intros item Hin Ha. cbn in Hin.
  repeat (destruct Hin as [<-|Hin]; [discriminate |]). contradiction.
Qed.

Lemma Highlight_step c e :
  Highlight (nav c) -> Highlight (nav (fst (step c e))).
Proof.
  intros HH. pose proof (proj1 HH) as Hs.
  destruct e as [w| |w|w item event| |]; cbn.
  - unfold updateActiveSection.
    destruct (Qlt_bool _ _); [now apply Highlight_setActiveSection |].
    destruct (negb _); [now apply Highlight_setActiveSection | exact HH].
  - unfold onWindowScroll, clear_throttle. destruct (scrollThrottle c); exact HH.
  - unfold timeout. destruct (timers c); [exact HH |]. cbn.
    unfold updateActiveSection.
    destruct (Qlt_bool _ _); [now apply Highlight_setActiveSection |].
    destruct (negb _); [now apply Highlight_setActiveSection | exact HH].
  - unfold onNavigationClick. cbn. apply Highlight_setActiveSection. exact Hs.
  - exact HH.
  - unfold ngOnDestroy, clear_throttle. destruct (scrollThrottle c); exact HH.
Qed.

(** X13: at most one link is highlighted.  Whatever the component goes
    through (initialization, scrolling, timeouts, clicks on any item, menu
    toggles, destruction), its links remain the four of the component, at
    most one of them is flagged active, and a link flagged active is the
    link of [currentActiveSection]. *)
Theorem single_highlight evs :
  Highlight (nav (fst (run created evs))).
Proof.
  assert (H0 : Highlight (nav created)) by exact Highlight_initial.
  revert H0. generalize created.
  induction evs as [|e evs IH]; intros c HH; [exact HH |].
  cbn [run]. pose proof (Highlight_step c e HH) as H1.
  destruct (step c e) as [c1 fx1]. cbn [fst] in H1.
  pose proof (IH c1 H1) as H2.
  destruct (run c1 evs) as [c2 fx2]. exact H2.
Qed.

(** *** The scroll timer *)

Lemma run_split evs1 : forall evs2 c,
  run c (evs1 ++ evs2)
  = (fst (run (fst (run c evs1)) evs2),
     snd (run c evs1) ++ snd (run (fst (run c evs1)) evs2)).
Proof.
  induction evs1 as [|e evs1 IH]; intros evs2 c; cbn.
  - now destruct (run c evs2).
  - destruct (step c e) as [c1 fx1]. rewrite IH.
    destruct (run c1 evs1) as [c2 fx2]. cbn. now rewrite app_assoc.
Qed.

Lemma drop_self h : drop h [h] = [].
Proof. unfold drop. cbn. now rewrite Nat.eqb_refl. Qed.

Lemma scroll_one_timer c :
  OneTimer c ->
  timers (fst (onWindowScroll c)) = [nextTimer c] /\
  scrollThrottle (fst (onWindowScroll c)) = Some (nextTimer c) /\
  nav (fst (onWindowScroll c)) = nav c /\
  recomputations (snd (onWindowScroll c)) = 0.
Proof.
  intros HO. unfold onWindowScroll, clear_throttle.
  destruct HO as [Ht | (h & Ht & Hs)].
  - destruct (scrollThrottle c); cbn; rewrite Ht; cbn; auto.
  - rewrite Hs. cbn. rewrite Ht, drop_self. cbn. auto.
Qed.

Lemma destroy_no_timer c : OneTimer c -> timers (fst (ngOnDestroy c)) = [].
Proof.
  intros HO. unfold ngOnDestroy, clear_throttle.
  destruct HO as [Ht | (h & Ht & Hs)].
  - destruct (scrollThrottle c); cbn; rewrite Ht; reflexivity.
  - rewrite Hs. cbn. rewrite Ht. apply drop_self.
Qed.

Lemma OneTimer_step c e : OneTimer c -> OneTimer (fst (step c e)).
Proof.
  intros HO. destruct e as [w| |w|w item event| |]; cbn [step].
  - exact HO.
  - destruct (scroll_one_timer c HO) as (A & B & _). right. eauto.
  - unfold timeout. destruct HO as [Ht | (h & Ht & Hs)]; rewrite Ht.
    + now left.
    + now left.
  - destruct (onNavigationClick _ _ _ _). exact HO.
  - exact HO.
  - left. now apply destroy_no_timer.
Qed.

Lemma OneTimer_run evs : forall c, OneTimer c -> OneTimer (fst (run c evs)).
Proof.
  induction evs as [|e evs IH]; intros c HO; [exact HO |].
  cbn. pose proof (OneTimer_step c e HO) as H1.
  destruct (step c e) as [c1 fx1]. cbn in H1.
  pose proof (IH c1 H1) as H2. destruct (run c1 evs) as [c2 fx2]. exact H2.
Qed.

(** A burst of scroll events leaves exactly one timeout pending and
    recomputes nothing. *)
Lemma scroll_burst n : forall c,
  OneTimer c ->
  (exists h, timers (fst (run c (repeat EvScroll (S n)))) = [h] /\
             scrollThrottle (fst (run c (repeat EvScroll (S n)))) = Some h) /\
  nav (fst (run c (repeat EvScroll (S n)))) = nav c /\
  recomputations (snd (run c (repeat EvScroll (S n)))) = 0.
Proof.
  induction n as [|n IH]; intros c HO.
  - cbn. destruct (scroll_one_timer c HO) as (A & B & C & D).
    destruct (onWindowScroll c) as [c1 fx1]. cbn in *.
    rewrite app_nil_r. eauto.
  - cbn [repeat run step].
    destruct (scroll_one_timer c HO) as (Ht & Hs & B & C).
    destruct (onWindowScroll c) as [c1 fx1] eqn:E1. cbn in Ht, Hs, B, C.
    assert (HO1 : OneTimer c1) by (right; eauto).
    destruct (IH c1 HO1) as (A2 & B2 & C2).
    cbn [repeat run step] in A2, B2, C2.
    destruct (onWindowScroll c1) as [c2 fx2].
    destruct (run c2 (repeat EvScroll n)) as [c3 fx3]. cbn in *.
    split; [exact A2 | split; [congruence |]].
    unfold recomputations in *. rewrite filter_app, length_app. lia.
Qed.

Lemma timeouts_idle ws : forall c,
  timers c = [] -> run c (map EvTimeout ws) = (c, []).
Proof.
  induction ws as [|w ws IH]; intros c Ht; [reflexivity |].
  cbn. unfold timeout. rewrite Ht. now rewrite (IH c Ht).
Qed.

(** X14: scrolling is debounced.  In every reachable state at most one
    timeout is pending.  A burst of one or more scroll events followed by
    the timeouts elapsing recomputes the active section exactly once, with
    the page as it is when the timeout elapses, and leaves no timeout
    pending; if ngOnDestroy comes between the burst and the timeouts,
    nothing is recomputed at all. *)
Theorem scroll_debounced evs n w ws :
  List.length (timers (fst (run created evs))) <= 1 /\
  recomputations
    (snd (run (fst (run created evs))
              (repeat EvScroll (S n) ++ EvTimeout w :: map EvTimeout ws))) = 1 /\
  nav (fst (run (fst (run created evs))
                (repeat EvScroll (S n) ++ EvTimeout w :: map EvTimeout ws)))
    = updateActiveSection w (nav (fst (run created evs))) /\
  timers (fst (run (fst (run created evs))
                   (repeat EvScroll (S n) ++ EvTimeout w :: map EvTimeout ws)))
    = [] /\
  recomputations
    (snd (run (fst (run created evs))
              (repeat EvScroll (S n) ++ EvDestroy :: map EvTimeout ws))) = 0.
Proof.
  assert (HO : OneTimer (fst (run created evs)))
    by (apply OneTimer_run; now left).
  set (c := fst (run created evs)) in *.
  destruct (scroll_burst n c HO) as ((h & Ht & Hs) & Hn & Hr).
  rewrite !run_split. cbn [fst snd].
  set (c1 := fst (run c (repeat EvScroll (S n)))) in *.
  set (f1 := snd (run c (repeat EvScroll (S n)))) in *.
  assert (HO1 : OneTimer c1) by (right; eauto).
  pose proof (destroy_no_timer c1 HO1) as Hd.
  assert (Hfire : run c1 (EvTimeout w :: map EvTimeout ws)
                  = (mkComponent (updateActiveSection w (nav c1))
                                 (scrollThrottle c1) [] (nextTimer c1),
                     [FxRecomputed h])).
  { cbn [run step]. unfold timeout. rewrite Ht.
    now rewrite timeouts_idle by reflexivity. }
  assert (Hgone : run c1 (EvDestroy :: map EvTimeout ws)
                  = (fst (ngOnDestroy c1), snd (ngOnDestroy c1) ++ [])).
  { cbn [run step]. destruct (ngOnDestroy c1) as [c2 f2]. cbn in Hd |- *.
    now rewrite timeouts_idle by exact Hd. }
  rewrite Hfire, Hgone. cbn [fst snd nav timers].
  unfold recomputations in *. rewrite !filter_app, !length_app, Hr.
  split; [| split; [| split; [| split]]].
  - destruct HO as [E | (k & E & _)]; rewrite E; cbn; lia.
  - reflexivity.
  - now rewrite Hn.
  - reflexivity.
  - unfold ngOnDestroy, clear_throttle. rewrite Hs. reflexivity.
Qed.

End TrackingFacts.

(** ** The services carousel: cycling and its timer *)

Module CarouselFacts.
Import Services Carousel ServicesFacts.
Local Open Scope Z_scope.

Lemma next_mod i :
  0 <= i < 3 -> (if i <? 3 - 1 then i + 1 else 0) = (i + 1) mod 3.
Proof.
  intros H. assert (E : i = 0 \/ i = 1 \/ i = 2) by lia.
  destruct E as [-> | [-> | ->]]; reflexivity.
Qed.

Lemma previous_mod i :
  0 <= i < 3 -> (if 0 <? i then i - 1 else 3 - 1) = (i - 1) mod 3.
Proof.
  intros H. assert (E : i = 0 \/ i = 1 \/ i = 2) by lia.
  destruct E as [-> | [-> | ->]]; reflexivity.
Qed.

Lemma iter_next n : forall s,
  in_bounds s ->
  currentServiceIndex (Nat.iter n nextService s)
  = (currentServiceIndex s + Z.of_nat n) mod 3.
Proof.
  unfold in_bounds. rewrite services_length_3.
  induction n as [|n IH]; intros s Hs.
  - change (Nat.iter 0 nextService s) with s.
    rewrite Z.add_0_r. symmetry. now apply Z.mod_small.
  - change (Nat.iter (S n) nextService s)
      with (nextService (Nat.iter n nextService s)).
    rewrite nextService_index, services_length_3, (IH s Hs).
    rewrite next_mod by (apply Z.mod_pos_bound; lia).
    rewrite Zplus_mod_idemp_l. f_equal. lia.
Qed.

Lemma iter_previous n : forall s,
  in_bounds s ->
  currentServiceIndex (Nat.iter n previousService s)
  = (currentServiceIndex s - Z.of_nat n) mod 3.
Proof.
  unfold in_bounds. rewrite services_length_3.
  induction n as [|n IH]; intros s Hs.
  - change (Nat.iter 0 previousService s) with s.
    rewrite Z.sub_0_r. symmetry. now apply Z.mod_small.
  - change (Nat.iter (S n) previousService s)
      with (previousService (Nat.iter n previousService s)).
    rewrite previousService_index, services_length_3, (IH s Hs).
    rewrite previous_mod by (apply Z.mod_pos_bound; lia).
    rewrite Zminus_mod_idemp_l. f_equal. lia.
Qed.

(** X15: the carousel is a cycle of three.  From an index of the array,
    [n] calls of nextService lead to (index + n) mod 3 and [n] calls of
    previousService to (index - n) mod 3; in particular each undoes the
    other, and three in a row return to where they started. *)
Theorem carousel_cycles s n :
  in_bounds s ->
  currentServiceIndex (Nat.iter n nextService s)
    = (currentServiceIndex s + Z.of_nat n) mod 3 /\
  currentServiceIndex (Nat.iter n previousService s)
    = (currentServiceIndex s - Z.of_nat n) mod 3 /\
  currentServiceIndex (previousService (nextService s))
    = currentServiceIndex s /\
  currentServiceIndex (nextService (previousService s))
    = currentServiceIndex s /\
  currentServiceIndex (Nat.iter 3 nextService s) = currentServiceIndex s /\
  currentServiceIndex (Nat.iter 3 previousService s) = currentServiceIndex s.
Proof.
  intros Hs. pose proof Hs as Hb. unfold in_bounds in Hb.
  rewrite services_length_3 in Hb.
  assert (E : currentServiceIndex s = 0 \/ currentServiceIndex s = 1 \/
              currentServiceIndex s = 2) by lia.
  split; [now apply iter_next | split; [now apply iter_previous |]].
  rewrite (iter_next 3 s Hs), (iter_previous 3 s Hs).
  repeat (rewrite ?nextService_index, ?previousService_index).
  rewrite !services_length_3.
  destruct E as [-> | [-> | ->]]; repeat split; reflexivity.
Qed.

Lemma carousel_cycles_witness :
  currentServiceIndex (Nat.iter 5 nextService (goToService 2 initial)) = 1 /\
  currentServiceIndex (Nat.iter 4 previousService (goToService 2 initial)) = 1.
Proof.
  assert (Hs : in_bounds (goToService 2 initial))
    by (unfold in_bounds; rewrite goToService_index, services_length_3; lia).
  destruct (carousel_cycles (goToService 2 initial) 5 Hs) as (A & _).
  destruct (carousel_cycles (goToService 2 initial) 4 Hs) as (_ & B & _).
  rewrite goToService_index in A, B. split; [exact A | exact B].
Defined.

(** X16: goToService stores whatever index it is given.  An index outside
    the array is kept as it is; from an index at or beyond the last one
    nextService goes to 0, and from an index at or before the first one
    previousService goes to the last one, but nextService from an index
    below -1 and previousService from an index above 3 stay outside the
    array: below 0 and above 2. *)
Theorem goToService_unchecked i s :
  currentServiceIndex (goToService i s) = i /\
  (2 <= i -> currentServiceIndex (nextService (goToService i s)) = 0) /\
  (i <= 0 -> currentServiceIndex (previousService (goToService i s)) = 2) /\
  (i < -1 -> currentServiceIndex (nextService (goToService i s)) < 0) /\
  (3 < i -> 2 < currentServiceIndex (previousService (goToService i s))).
Proof.
  rewrite nextService_index, previousService_index, goToService_index,
    services_length_3.
  split; [reflexivity | repeat split]; intros H.
  - destruct (i <? 3 - 1) eqn:E; [apply Z.ltb_lt in E; lia | reflexivity].
  - destruct (0 <? i) eqn:E; [apply Z.ltb_lt in E; lia | reflexivity].
  - destruct (i <? 3 - 1) eqn:E; [lia | apply Z.ltb_ge in E; lia].
  - destruct (0 <? i) eqn:E; [lia | apply Z.ltb_ge in E; lia].
Qed.

(** *** The interval timer *)

Lemma drop_only h : filter (fun k => negb (Nat.eqb k h)) [h] = [].
Proof. cbn. now rewrite Nat.eqb_refl. Qed.

Lemma Ticking_reset s : Ticking s -> Ticking (resetServicesAutoPlay s).
Proof.
  unfold Ticking, resetServicesAutoPlay, startServicesAutoPlay, clearInterval.
  destruct s as [i a si iv nx]. cbn. destruct a.
  - intros (h & -> & ->). cbn. rewrite Nat.eqb_refl. cbn. eauto.
  - intros ->. destruct si; cbn; reflexivity.
Qed.

Lemma Ticking_set_index i s : Ticking s -> Ticking (set_index i s).
Proof. unfold Ticking, set_index. destruct s. cbn. auto. Qed.

Lemma Ticking_toggle s : Ticking s -> Ticking (toggleServicesAutoPlay s).
Proof.
  unfold Ticking, toggleServicesAutoPlay, startServicesAutoPlay, clearInterval.
  destruct s as [i a si iv nx]. cbn. destruct a; cbn.
  - intros (h & -> & ->). cbn. now rewrite Nat.eqb_refl.
  - intros ->. eauto.
Qed.

Lemma Ticking_exec s c : Ticking s -> later c -> Ticking (exec s c).
Proof.
  intros HT Hc. destruct c as [i| | | | |]; cbn [exec].
  - apply Ticking_reset. now apply Ticking_set_index.
  - apply Ticking_reset. now apply Ticking_set_index.
  - apply Ticking_reset. now apply Ticking_set_index.
  - now apply Ticking_toggle.
  - contradiction.
  - destruct (intervals s); [exact HT |].
    apply Ticking_reset. now apply Ticking_set_index.
Qed.

(** X17: never two timers.  After ngOnInit, whatever the user and the
    timer do (next, previous, go to a panel, toggle auto-play, a tick),
    exactly one interval is running while auto-play is on, the one whose
    handle is stored, and none while it is off. *)
Theorem one_interval calls :
  Forall later calls ->
  Ticking (fold_left exec calls (startServicesAutoPlay initial)) /\
  (List.length (intervals (fold_left exec calls (startServicesAutoPlay initial)))
   <= 1)%nat.
Proof.
  intros Hf.
  assert (HT : Ticking (fold_left exec calls (startServicesAutoPlay initial))).
  { assert (H0 : Ticking (startServicesAutoPlay initial)) by (cbn; eauto).
    revert H0. generalize (startServicesAutoPlay initial).
    induction Hf as [|c calls Hc Hf IH]; intros s HT; [exact HT |].
    cbn [fold_left]. apply IH. now apply Ticking_exec. }
  split; [exact HT |]. unfold Ticking in HT.
  destruct (isServicesAutoPlay _); [destruct HT as (h & _ & ->) | rewrite HT];
    cbn; lia.
Qed.

Lemma one_interval_witness :
  Forall later [Next; Toggle; GoTo 7; Previous; Toggle; Tick] /\
  intervals (fold_left exec [Next; Toggle; GoTo 7; Previous; Toggle; Tick]
                       (startServicesAutoPlay initial)) = [4%nat] /\
  (List.length
     (intervals (fold_left exec [Next; Toggle; GoTo 7; Previous; Toggle; Tick]
                           (startServicesAutoPlay initial))) <= 1)%nat.
Proof.
  assert (Hf : Forall later [Next; Toggle; GoTo 7; Previous; Toggle; Tick])
    by (repeat constructor).
  split; [exact Hf | split; [reflexivity |]].
  exact (proj2 (one_interval _ Hf)).
Defined.

End CarouselFacts.

(** ** The gallery modal *)

Module GalleryFacts.
Import Gallery.
Local Open Scope Z_scope.

Lemma gallery_length_6 : gallery_length = 6.
Proof. reflexivity. Qed.

Lemma at_index_some i :
  0 <= i < gallery_length -> at_index i <> None.
Proof.
  rewrite gallery_length_6. intros H.
  assert (E : i = 0 \/ i = 1 \/ i = 2 \/ i = 3 \/ i = 4 \/ i = 5) by lia.
  destruct E as [-> | [-> | [-> | [-> | [-> | ->]]]]]; discriminate.
Qed.

Lemma at_index_range i image :
  at_index i = Some image -> 0 <= i < gallery_length.
Proof.
  unfold at_index. intros H.
  destruct (i <? 0) eqn:E; [discriminate |]. apply Z.ltb_ge in E.
  assert (Hl : (Z.to_nat i < List.length galleryImages)%nat)
    by (apply nth_error_Some; rewrite H; discriminate).
  unfold gallery_length. lia.
Qed.

Lemma at_index_outside i :
  i < 0 \/ gallery_length <= i -> at_index i = None.
Proof.
  rewrite gallery_length_6. unfold at_index. intros [H | H].
  - destruct (i <? 0) eqn:E; [reflexivity | apply Z.ltb_ge in E; lia].
  - destruct (i <? 0); [reflexivity |]. apply nth_error_None.
    change (List.length galleryImages) with 6%nat. lia.
Qed.

Lemma Showing_previous s : Showing s -> Showing (previousImage s).
Proof.
  intros HS. pose proof HS as (Hi & Ho & Hb). unfold previousImage.
  destruct (0 <? selectedImageIndex s) eqn:E; [| exact HS].
  apply Z.ltb_lt in E. unfold Showing. cbn [selectedImageIndex isModalOpen
    selectedImage bodyOverflow].
  split; [lia | split; [| exact Hb]].
  intros _. split; [reflexivity | apply at_index_some; lia].
Qed.

Lemma Showing_next s : Showing s -> Showing (nextImage s).
Proof.
  intros HS. pose proof HS as (Hi & Ho & Hb). unfold nextImage.
  destruct (selectedImageIndex s <? gallery_length - 1) eqn:E;
    [| exact HS].
  apply Z.ltb_lt in E. unfold Showing. cbn [selectedImageIndex isModalOpen
    selectedImage bodyOverflow].
  split; [lia | split; [| exact Hb]].
  intros _. split; [reflexivity | apply at_index_some; lia].
Qed.

Lemma Showing_close s : Showing s -> Showing (closeImageModal s).
Proof.
  intros (Hi & _ & _). unfold Showing, closeImageModal. cbn.
  split; [exact Hi | split; [discriminate |]]. split; discriminate.
Qed.

Lemma Showing_exec s c : Showing s -> matching c -> Showing (exec s c).
Proof.
  intros HS Hm. destruct c as [image i| | | |k]; cbn [exec].
  - cbn in Hm. pose proof (at_index_range _ _ Hm) as Hr.
    unfold Showing, openImageModal.
    cbn [selectedImageIndex isModalOpen selectedImage bodyOverflow].
    split; [exact Hr | split; [| tauto]].
    intros _. rewrite Hm. split; [reflexivity | discriminate].
  - now apply Showing_close.
  - now apply Showing_previous.
  - now apply Showing_next.
  - unfold onModalKeydown.
    destruct (String.eqb k "Escape"); [now apply Showing_close |].
    destruct (String.eqb k "ArrowLeft"); [now apply Showing_previous |].
    destruct (String.eqb k "ArrowRight"); [now apply Showing_next | exact HS].
Qed.

(** X18: the modal shows the image at its index.  As long as the modal
    is opened with an image of the gallery and that image's own index,
    however it is closed, stepped through or driven by keys,
    [selectedImageIndex] stays an index of [galleryImages]; while the modal
    is open [selectedImage] is the image at that index; and the body's
    overflow is 'hidden' exactly while the modal is open. *)
Theorem modal_shows_index calls :
  Forall matching calls ->
  Showing (fold_left exec calls initial).
Proof.
  intros Hf.
  assert (H0 : Showing initial).
  { unfold Showing. rewrite gallery_length_6. cbn.
    split; [lia | split; [discriminate |]]. split; discriminate. }
  revert H0. generalize initial.
  induction Hf as [|c calls Hc Hf IH]; intros s HS; [exact HS |].
  cbn [fold_left]. apply IH. now apply Showing_exec.
Qed.

Lemma modal_shows_index_witness :
  Forall matching [Open izia 3; Next; Key "ArrowRight"; Next; Previous;
                   Key "Escape"; Open izia 3; Key "ArrowLeft"; Key "x"] /\
  Showing (fold_left exec
             [Open izia 3; Next; Key "ArrowRight"; Next; Previous;
              Key "Escape"; Open izia 3; Key "ArrowLeft"; Key "x"]
             initial).
Proof.
  assert (Hf : Forall matching
                 [Open izia 3; Next; Key "ArrowRight"; Next; Previous;
                  Key "Escape"; Open izia 3; Key "ArrowLeft"; Key "x"])
    by (repeat constructor).
  split; [exact Hf | exact (modal_shows_index _ Hf)].
Defined.

(** *** Stepping through the gallery *)

Lemma nextImage_index s :
  selectedImageIndex (nextImage s)
  = if selectedImageIndex s <? 5 then selectedImageIndex s + 1
    else selectedImageIndex s.
Proof.
  unfold nextImage. rewrite gallery_length_6. change (6 - 1) with 5.
  now destruct (selectedImageIndex s <? 5).
Qed.

Lemma previousImage_index s :
  selectedImageIndex (previousImage s)
  = if 0 <? selectedImageIndex s then selectedImageIndex s - 1
    else selectedImageIndex s.
Proof. unfold previousImage. now destruct (0 <? selectedImageIndex s). Qed.

Lemma iter_nextImage n : forall s,
  selectedImageIndex s <= 5 ->
  selectedImageIndex (Nat.iter n nextImage s)
  = Z.min (selectedImageIndex s + Z.of_nat n) 5.
Proof.
  induction n as [|n IH]; intros s Hs.
  - change (Nat.iter 0 nextImage s) with s. lia.
  - change (Nat.iter (S n) nextImage s) with (nextImage (Nat.iter n nextImage s)).
    rewrite nextImage_index, (IH s Hs).
    destruct (Z.min (selectedImageIndex s + Z.of_nat n) 5 <? 5) eqn:E;
      [apply Z.ltb_lt in E | apply Z.ltb_ge in E]; lia.
Qed.

Lemma iter_previousImage n : forall s,
  0 <= selectedImageIndex s ->
  selectedImageIndex (Nat.iter n previousImage s)
  = Z.max (selectedImageIndex s - Z.of_nat n) 0.
Proof.
  induction n as [|n IH]; intros s Hs.
  - change (Nat.iter 0 previousImage s) with s. lia.
  - change (Nat.iter (S n) previousImage s)
      with (previousImage (Nat.iter n previousImage s)).
    rewrite previousImage_index, (IH s Hs).
    destruct (0 <? Z.max (selectedImageIndex s - Z.of_nat n) 0) eqn:E;
      [apply Z.ltb_lt in E | apply Z.ltb_ge in E]; lia.
Qed.

Lemma nextImage_last s : selectedImageIndex s = 5 -> nextImage s = s.
Proof. intros H. unfold nextImage. now rewrite H. Qed.

Lemma previousImage_first s : selectedImageIndex s = 0 -> previousImage s = s.
Proof. intros H. unfold previousImage. now rewrite H. Qed.

Lemma previous_next s :
  selectedImage s = at_index (selectedImageIndex s) ->
  0 <= selectedImageIndex s < 5 -> previousImage (nextImage s) = s.
Proof.
  destruct s as [o im i b k]. cbn [selectedImage selectedImageIndex].
  intros -> H. unfold nextImage. cbn [selectedImageIndex].
  rewrite gallery_length_6.
  destruct (i <? 6 - 1) eqn:E; [| apply Z.ltb_ge in E; lia].
  unfold previousImage.
  cbn [selectedImageIndex isModalOpen bodyOverflow scheduled].
  destruct (0 <? i + 1) eqn:E2; [| apply Z.ltb_ge in E2; lia].
  replace (i + 1 - 1) with i by lia. reflexivity.
Qed.

Lemma next_previous s :
  selectedImage s = at_index (selectedImageIndex s) ->
  0 < selectedImageIndex s < 6 -> nextImage (previousImage s) = s.
Proof.
  destruct s as [o im i b k]. cbn [selectedImage selectedImageIndex].
  intros -> H. unfold previousImage. cbn [selectedImageIndex].
  destruct (0 <? i) eqn:E; [| apply Z.ltb_ge in E; lia].
  unfold nextImage.
  cbn [selectedImageIndex isModalOpen bodyOverflow scheduled].
  rewrite gallery_length_6.
  destruct (i - 1 <? 6 - 1) eqn:E2; [| apply Z.ltb_ge in E2; lia].
  replace (i - 1 + 1) with i by lia. reflexivity.
Qed.

(** X19: the gallery stops at its ends.  From an index of the array, [n]
    calls of nextImage lead to min(index + n, 5) and [n] calls of
    previousImage to max(index - n, 0): at the last image nextImage, and
    at the first image previousImage, change nothing at all; and away
    from the ends, when the image shown is the one at the index, each
    call undoes the other. *)
Theorem gallery_stops_at_ends s n :
  0 <= selectedImageIndex s < 6 ->
  selectedImageIndex (Nat.iter n nextImage s)
    = Z.min (selectedImageIndex s + Z.of_nat n) 5 /\
  selectedImageIndex (Nat.iter n previousImage s)
    = Z.max (selectedImageIndex s - Z.of_nat n) 0 /\
  (selectedImageIndex s = 5 -> nextImage s = s) /\
  (selectedImageIndex s = 0 -> previousImage s = s) /\
  (selectedImage s = at_index (selectedImageIndex s) ->
   (selectedImageIndex s < 5 -> previousImage (nextImage s) = s) /\
   (0 < selectedImageIndex s -> nextImage (previousImage s) = s)).
Proof.
  intros Hs.
  split; [apply iter_nextImage; lia | split; [apply iter_previousImage; lia |]].
  split; [apply nextImage_last | split; [apply previousImage_first |]].
  intros Hi. split; intros H.
  - apply previous_next; [exact Hi | lia].
  - apply next_previous; [exact Hi | lia].
Qed.

Lemma gallery_stops_at_ends_witness :
  selectedImageIndex
    (Nat.iter 9 nextImage (openImageModal izia 3 initial)) = 5 /\
  selectedImageIndex
    (Nat.iter 9 previousImage (openImageModal izia 3 initial)) = 0.
Proof.
  assert (Hs : 0 <= selectedImageIndex (openImageModal izia 3 initial) < 6)
    by (cbn; lia).
  destruct (gallery_stops_at_ends (openImageModal izia 3 initial) 9 Hs)
    as (A & B & _).
  split; [exact A | exact B].
Defined.

(** X20: openImageModal trusts its index.  Called with an index beyond
    the array it stores it; ArrowLeft then steps to an index that has no
    image, leaving the modal open with [selectedImage] undefined, and
    ArrowRight does nothing.  Called with a negative index, ArrowRight
    steps to the next index, which has no image either as long as it is
    negative, and ArrowLeft does nothing. *)
Theorem openImageModal_unchecked image i s :
  selectedImageIndex (openImageModal image i s) = i /\
  (6 < i ->
   isModalOpen (previousImage (openImageModal image i s)) = true /\
   selectedImage (previousImage (openImageModal image i s)) = None /\
   nextImage (openImageModal image i s) = openImageModal image i s) /\
  (i < -1 ->
   isModalOpen (nextImage (openImageModal image i s)) = true /\
   selectedImage (nextImage (openImageModal image i s)) = None /\
   previousImage (openImageModal image i s) = openImageModal image i s).
Proof.
  unfold previousImage, nextImage, openImageModal. rewrite gallery_length_6.
  cbn. split; [reflexivity | split; intros H].
  - destruct (0 <? i) eqn:E; [| apply Z.ltb_ge in E; lia].
    destruct (i <? 5) eqn:E2; [apply Z.ltb_lt in E2; lia |]. cbn.
    split; [reflexivity | split; [| reflexivity]].
    apply at_index_outside. rewrite gallery_length_6. lia.
  - destruct (i <? 5) eqn:E; [| apply Z.ltb_ge in E; lia].
    destruct (0 <? i) eqn:E2; [apply Z.ltb_lt in E2; lia |]. cbn.
    split; [reflexivity | split; [| reflexivity]].
    apply at_index_outside. lia.
Qed.

End GalleryFacts.

(** ** The hero fade *)

Module HeroFacts.
Import Hero.
Local Open Scope Q_scope.

(** The three branches of updateHeroVisibility. *)
Lemma hero_cases h y s :
  (y <= h * (8 # 10) /\
   updateHeroVisibility h y s = mkState true 1) \/
  (h * (8 # 10) < y /\ h <= y /\
   updateHeroVisibility h y s = mkState false 0) \/
  (h * (8 # 10) < y /\ y < h /\
   updateHeroVisibility h y s
   = mkState true (1 - (y - h * (8 # 10)) / (h - h * (8 # 10)))).
Proof.
  unfold updateHeroVisibility. cbv zeta.
  destruct (Qle_bool y (h * (8 # 10))) eqn:E1.
  - left. apply Qle_bool_iff in E1. auto.
  - right.
    assert (H1 : h * (8 # 10) < y).
    { apply Qnot_le_lt. intros F. apply Qle_bool_iff in F. congruence. }
    destruct (Qle_bool h y) eqn:E2.
    + left. apply Qle_bool_iff in E2. auto.
    + right. split; [exact H1 | split; [| reflexivity]].
      apply Qnot_le_lt. intros F. apply Qle_bool_iff in F. congruence.
Qed.

(** Within the fade the progress lies strictly between 0 and 1. *)
Lemma progress_between h y :
  h * (8 # 10) < y -> y < h ->
  0 < (y - h * (8 # 10)) / (h - h * (8 # 10)) /\
  (y - h * (8 # 10)) / (h - h * (8 # 10)) < 1.
Proof.
  intros H1 H2.
  assert (Hd : 0 < h - h * (8 # 10)) by Lqa.lra.
  split.
  - apply Qlt_shift_div_l; [exact Hd | Lqa.lra].
  - apply Qlt_shift_div_r; [exact Hd | Lqa.lra].
Qed.

Lemma progress_monotone h y1 y2 :
  0 < h - h * (8 # 10) -> y1 <= y2 ->
  (y1 - h * (8 # 10)) / (h - h * (8 # 10))
  <= (y2 - h * (8 # 10)) / (h - h * (8 # 10)).
Proof.
  intros Hd Hy. unfold Qdiv. apply Qmult_le_compat_r; [Lqa.lra |].
  apply Qlt_le_weak. now apply Qinv_lt_0_compat.
Qed.

(** X21: the hero's opacity is a proper opacity.  Whatever the viewport
    height and the scroll offset, after updateHeroVisibility the opacity
    lies between 0 and 1, and the hero is marked visible exactly when the
    opacity is above 0. *)
Theorem hero_opacity_range h y s :
  0 <= heroOpacity (updateHeroVisibility h y s) <= 1 /\
  (isHeroVisible (updateHeroVisibility h y s) = true <->
   0 < heroOpacity (updateHeroVisibility h y s)).
Proof.
  destruct (hero_cases h y s) as [(_ & ->) | [(_ & _ & ->) | (H1 & H2 & ->)]];
    cbn [heroOpacity isHeroVisible].
  - split; [split; Lqa.lra |]. split; [intros _; Lqa.lra | reflexivity].
  - split; [split; Lqa.lra |]. split; [discriminate | intros F; Lqa.lra].
  - destruct (progress_between h y H1 H2) as [P0 P1].
    set (p := (y - h * (8 # 10)) / (h - h * (8 # 10))) in *.
    split; [split; Lqa.lra |]. split; [intros _; Lqa.lra | reflexivity].
Qed.

(** X22: scrolling down never brightens the hero.  For one viewport
    height, a larger scroll offset gives an opacity that is at most the
    opacity of the smaller one; up to 0.8 viewport heights the opacity is
    1, and from one viewport height on it is 0. *)
Theorem hero_fades_monotonically h y1 y2 s1 s2 :
  y1 <= y2 ->
  heroOpacity (updateHeroVisibility h y2 s2)
    <= heroOpacity (updateHeroVisibility h y1 s1) /\
  (y1 <= h * (8 # 10) -> heroOpacity (updateHeroVisibility h y1 s1) = 1) /\
  (h * (8 # 10) < y1 -> h <= y1 ->
   heroOpacity (updateHeroVisibility h y1 s1) = 0).
Proof.
  intros Hy. split; [| split].
  - destruct (hero_opacity_range h y1 s1) as [[L1 U1] _].
    destruct (hero_opacity_range h y2 s2) as [[L2 U2] _].
    destruct (hero_cases h y1 s1)
      as [(A1 & E1) | [(A1 & B1 & E1) | (A1 & B1 & E1)]];
      destruct (hero_cases h y2 s2)
        as [(A2 & E2) | [(A2 & B2 & E2)| (A2 & B2 & E2)]];
      rewrite E1 in *; rewrite E2 in *; cbn [heroOpacity] in *;
      try Lqa.lra.
    assert (Hd : 0 < h - h * (8 # 10)) by Lqa.lra.
    pose proof (progress_monotone h y1 y2 Hd Hy) as Hm.
    set (p1 := (y1 - h * (8 # 10)) / (h - h * (8 # 10))) in *.
    set (p2 := (y2 - h * (8 # 10)) / (h - h * (8 # 10))) in *.
    Lqa.lra.
  - intros H.
    destruct (hero_cases h y1 s1)
      as [(A1 & E1) | [(A1 & B1 & E1) | (A1 & B1 & E1)]];
      rewrite E1; cbn [heroOpacity]; try reflexivity; Lqa.lra.
  - intros H H'.
    destruct (hero_cases h y1 s1)
      as [(A1 & E1) | [(A1 & B1 & E1) | (A1 & B1 & E1)]];
      rewrite E1; cbn [heroOpacity]; try reflexivity; Lqa.lra.
Qed.

Lemma hero_fades_monotonically_witness :
  heroOpacity (updateHeroVisibility 1000 950 initial)
    <= heroOpacity (updateHeroVisibility 1000 900 initial) /\
  heroOpacity (updateHeroVisibility 1000 900 initial) == 1 # 2.
Proof.
  assert (Hy : 900 <= 950) by (unfold Qle; cbn; lia).
  split.
  - exact (proj1 (hero_fades_monotonically 1000 900 950 initial initial Hy)).
  - reflexivity.
Defined.

End HeroFacts.

(** ** The size limits of the modal image *)

Module ConstraintsFacts.
Import Constraints.
Local Open Scope Z_scope.

(** X23: the limits keep the image inside the viewport.  The load handler
    never allows more than 800 by 500 px, leaves 80 px of the viewport's
    width and 160 px of its height free around the image, and sizes the
    container 40 px larger each way, so that the container still fits the
    viewport; a viewport of at least 880 by 660 gets the full 800 by 500;
    in a viewport at most 80 wide or 160 high the limit is not positive.
    Nothing is written at once unless both elements are found and the
    image is complete. *)
Theorem limits_fit_viewport c i done w h :
  image_maxWidth (onload w h) <= 800 /\
  image_maxHeight (onload w h) <= 500 /\
  image_maxWidth (onload w h) + 80 <= w /\
  image_maxHeight (onload w h) + 160 <= h /\
  container_maxWidth (onload w h) = image_maxWidth (onload w h) + 40 /\
  container_maxHeight (onload w h) = image_maxHeight (onload w h) + 40 /\
  container_maxWidth (onload w h) < w /\
  container_maxHeight (onload w h) < h /\
  (880 <= w -> image_maxWidth (onload w h) = 800) /\
  (660 <= h -> image_maxHeight (onload w h) = 500) /\
  (w <= 80 -> image_maxWidth (onload w h) <= 0) /\
  (h <= 160 -> image_maxHeight (onload w h) <= 0) /\
  (snd (enforceGlobalImageConstraints c i done w h) <> None <->
   c = true /\ i = true /\ done = true).
Proof.
  unfold onload, enforceGlobalImageConstraints. cbn.
  repeat (split; [lia |]).
  destruct c, i, done; cbn; split; try discriminate; intuition discriminate.
Qed.

End ConstraintsFacts.
